(** * Verification of the exhibition-map CSV loader and the side panel's brand order

    Shallow embedding of [src/utils/csvLoader.ts] ([parseBrandsCSV]) and of the
    brand ordering of [src/components/Sidebar.tsx]; further, of the state
    of the side panel's cards ([toggleBrand], the two effects,
    [getTagStyle]), of the selection state of [App] ([handleHallSelect],
    [handleBrandSelect], [selectedHall]) and of the click and zoom
    handlers of [src/components/MapCanvas.tsx].

    - JavaScript strings are sequences of UTF-16 code units: [jsstring] is a
      list of code units, each an [N].
    - Objects live in a store: halls, arrays and brands are heap cells named
      by locations, so that the sharing between the parser's [brandMap] and
      the halls' [brands] arrays, and the difference between the skeleton
      and its working copy, are visible in the model.
    - The body of [parseBrandsCSV] runs in a small state-and-exception monad;
      [try]/[catch] is a combinator of that monad. *)

From Stdlib Require Import Ascii String.
From Corelib Require PrimFloat.
From stdpp Require Import gmap list sorting.

Local Open Scope N_scope.

(** ** Strings *)

Module JsString.

Abbreviation jsstring := (list N).

(** A string literal of the model: one code unit per character. *)
Fixpoint str (s : string) : jsstring :=
  match s with
  | EmptyString => []
  | String a s' => N_of_ascii a :: str s'
  end.

Definition COMMA : N := 44.
Definition QUOTE : N := 34.
Definition NEWLINE : N := 10.
Definition HYPHEN : N := 45.

Definition is_comma (c : N) : bool := c =? COMMA.
Definition is_quote (c : N) : bool := c =? QUOTE.

(** ECMAScript WhiteSpace and LineTerminator code points, the characters
    [String.prototype.trim] removes. *)
Definition is_space (c : N) : bool :=
  (c =? 9) || (c =? 10) || (c =? 11) || (c =? 12) || (c =? 13) ||
  (c =? 32) || (c =? 160) || (c =? 5760) ||
  ((8192 <=? c) && (c <=? 8202)) ||
  (c =? 8232) || (c =? 8233) || (c =? 8239) || (c =? 8287) ||
  (c =? 12288) || (c =? 65279).

Fixpoint trimStart (s : jsstring) : jsstring :=
  match s with
  | [] => []
  | c :: s' => if is_space c then trimStart s' else s
  end.

Definition trimEnd (s : jsstring) : jsstring := reverse (trimStart (reverse s)).

(** [s.trim()] *)
Definition trim (s : jsstring) : jsstring := trimEnd (trimStart s).

(** [s.split(sep)] for a one-character separator [sep]: never empty. *)
Fixpoint split_on (sep : N) (s : jsstring) : list jsstring :=
  match s with
  | [] => [[]]
  | c :: s' =>
      if c =? sep then [] :: split_on sep s'
      else match split_on sep s' with
           | [] => [[c]]
           | f :: fs => (c :: f) :: fs
           end
  end.

(** [s.startsWith(Q)] and [s.endsWith(Q)], with Q the double-quote
    character. *)
Definition startsWith_quote (s : jsstring) : bool :=
  match s with
  | c :: _ => is_quote c
  | [] => false
  end.

Definition endsWith_quote (s : jsstring) : bool :=
  match last s with
  | Some c => is_quote c
  | None => false
  end.

(** [s.slice(1, -1)]: from index 1 up to, not including, the last index;
    empty when the string has fewer than two characters. *)
Definition slice_1_m1 (s : jsstring) : jsstring :=
  take (length s - 1 - 1)%nat (drop 1 s).

(** [s.replace(/QQ/g, Q)]: left to right, every match of two adjacent
    double quotes is replaced by one; the scan resumes after the match. *)
Fixpoint unescape_quotes (s : jsstring) : jsstring :=
  match s with
  | c1 :: ((c2 :: s'') as s') =>
      if is_quote c1 && is_quote c2 then QUOTE :: unescape_quotes s''
      else c1 :: unescape_quotes s'
  | _ => s
  end.

End JsString.
Export JsString.

(** ** The separator pattern, as a regular expression *)

Module Regex.

(** The constructs the separator pattern uses. *)
Inductive re :=
| Chr (c : N)         (* one given character *)
| NotChr (c : N)      (* any character but the given one *)
| Seq (r1 r2 : re)
| Star (r : re).

(** [matches r s]: the whole of [s] matches [r]. *)
Inductive matches : re -> jsstring -> Prop :=
| matches_chr c : matches (Chr c) [c]
| matches_not c d : d <> c -> matches (NotChr c) [d]
| matches_seq r1 r2 s1 s2 :
    matches r1 s1 -> matches r2 s2 -> matches (Seq r1 r2) (s1 ++ s2)
| matches_star_nil r : matches (Star r) []
| matches_star_cons r s1 s2 :
    matches r s1 -> matches (Star r) s2 -> matches (Star r) (s1 ++ s2).

(** [[^Q]*Q] *)
Definition quote_group : re := Seq (Star (NotChr QUOTE)) (Chr QUOTE).

(** The look-ahead [(?:(?:[^Q]*Q){2})*[^Q]*$]: it is anchored at the end
    of the row, so it holds at a comma when the whole rest of the row
    matches. *)
Definition lookahead : re :=
  Seq (Star (Seq quote_group quote_group)) (Star (NotChr QUOTE)).

End Regex.

(** ** The row splitter *)

Module Splitter.

(** The look-ahead of the separator pattern
    [/,(?=(?:(?:[^Q]*Q){2})*[^Q]*$)/] (Q the double-quote character): the
    rest of the row consists of groups that each hold exactly two quotes,
    followed by a quote-free tail. A two-state scan decides it
    ([lookahead_is_parity_scan] below: the scan accepts exactly the
    strings that match [Regex.lookahead]). *)
Fixpoint even_quotes (s : jsstring) : bool :=
  match s with
  | [] => true
  | c :: s' => if is_quote c then negb (even_quotes s') else even_quotes s'
  end.

(** [row.split(/,(?=...)/)]: the pattern matches exactly one comma, and has
    no capture group, so the row is cut at every comma whose look-ahead
    succeeds and the commas are dropped. *)
Fixpoint split_row (row : jsstring) : list jsstring :=
  match row with
  | [] => [[]]
  | c :: rest =>
      if is_comma c && even_quotes rest then [] :: split_row rest
      else match split_row rest with
           | [] => [[c]]
           | f :: fs => (c :: f) :: fs
           end
  end.

(** The callback of [.map(c => ...)]: trim, remove surrounding quotes,
    collapse the CSV escape. *)
Definition normalize (c : jsstring) : jsstring :=
  let val := trim c in
  let val := if startsWith_quote val && endsWith_quote val
             then slice_1_m1 val else val in
  unescape_quotes val.

Definition parse_cols (row : jsstring) : list jsstring :=
  normalize <$> split_row row.

End Splitter.
Export Splitter.

(** ** The data model *)

(** Modelled from the spec: the declarations of [types.ts], which the
    sources import but do not contain. A hall has [id], [code], [floor],
    [type] and [brands]; the zone types are the ones the map component
    switches on. [Brand] and [CarModel] have the fields of the object
    literals of [parseBrandsCSV]. *)
Inductive ZoneType := NEV | LUXURY | PASSENGER | COMPONENTS.

Abbreviation loc := nat.

Module CarModel.
Record t := mk {
  name : jsstring;
  highlight : jsstring;
  isNewLaunch : bool;
  note : option jsstring  (* [None] is JavaScript's [undefined] *)
}.
End CarModel.

Module Brand.
Record t := mk {
  id : jsstring;
  booth : jsstring;
  name : jsstring;
  description : jsstring;
  models : list CarModel.t;
  fullModelList : list CarModel.t
}.
End Brand.

Module Hall.
(** Every property of a hall but [brands]: what [{...h, brands: []}]
    copies. *)
Record data := mkdata {
  id : jsstring;
  code : jsstring;
  floor : Z;
  type : ZoneType
}.
(** A hall object: [brands] is a reference to an array of brands. *)
Record t := mk {
  fields : data;
  brands : loc
}.
End Hall.

(** ** The store and the monad of effects *)

Module Store.

(** Three typed regions: hall objects, arrays of references (a [Hall[]] or
    a [Brand[]]) and brand objects. A location is an index into its region;
    allocation appends. The arrays [models] and [fullModelList] and their
    entries are created by the parser for one brand each and never shared,
    so a brand object carries them by value. *)
Record heap := mkheap {
  halls : list Hall.t;
  arrays : list (list loc);
  brands : list Brand.t
}.

(** What can be thrown: [fetch] rejecting, [response.text()] rejecting,
    and a property access through a reference that holds no object of
    the expected kind. The last one does not happen in a store that is
    well typed for the declarations of [types.ts]; it is there so that
    the [catch] of [parseBrandsCSV] has something to catch inside the
    pipeline. *)
Inductive error := NetworkError | BodyError | TypeError.

Inductive outcome (A : Type) :=
| Ret (a : A) (h : heap)
| Throw (e : error) (h : heap).
Arguments Ret {A} a h.
Arguments Throw {A} e h.

Definition M (A : Type) := heap -> outcome A.

Definition ret {A} (a : A) : M A := fun h => Ret a h.

Definition bind {A B} (m : M A) (k : A -> M B) : M B :=
  fun h => match m h with
           | Ret a h' => k a h'
           | Throw e h' => Throw e h'
           end.

Definition throw {A} (e : error) : M A := fun h => Throw e h.

(** [try { body } catch (error) { handler }]: the handler runs in the
    store as the body left it. *)
Definition try_catch {A} (body : M A) (handler : error -> M A) : M A :=
  fun h => match body h with
           | Ret a h' => Ret a h'
           | Throw e h' => handler e h'
           end.

Notation "'let!' x ':=' m 'in' k" := (bind m (fun x => k))
  (at level 10, x pattern, m at level 100, k at level 200).

Definition read_hall (l : loc) : M Hall.t :=
  fun h => match halls h !! l with
           | Some o => Ret o h
           | None => Throw TypeError h
           end.

Definition read_array (l : loc) : M (list loc) :=
  fun h => match arrays h !! l with
           | Some xs => Ret xs h
           | None => Throw TypeError h
           end.

Definition read_brand (l : loc) : M Brand.t :=
  fun h => match brands h !! l with
           | Some b => Ret b h
           | None => Throw TypeError h
           end.

Definition alloc_hall (o : Hall.t) : M loc :=
  fun h => Ret (length (halls h)) (mkheap (halls h ++ [o]) (arrays h) (brands h)).

Definition alloc_array (xs : list loc) : M loc :=
  fun h => Ret (length (arrays h)) (mkheap (halls h) (arrays h ++ [xs]) (brands h)).

Definition alloc_brand (b : Brand.t) : M loc :=
  fun h => Ret (length (brands h)) (mkheap (halls h) (arrays h) (brands h ++ [b])).

Definition write_array (l : loc) (xs : list loc) : M unit :=
  fun h => match arrays h !! l with
           | Some _ => Ret tt (mkheap (halls h) (<[l := xs]> (arrays h)) (brands h))
           | None => Throw TypeError h
           end.

Definition write_brand (l : loc) (b : Brand.t) : M unit :=
  fun h => match brands h !! l with
           | Some _ => Ret tt (mkheap (halls h) (arrays h) (<[l := b]> (brands h)))
           | None => Throw TypeError h
           end.

(** [arr.push(x)] *)
Definition push (arr : loc) (x : loc) : M unit :=
  let! xs := read_array arr in write_array arr (xs ++ [x]).

(** [xs.map(f)] for an effectful callback, left to right. *)
Fixpoint mapM {A B} (f : A -> M B) (xs : list A) : M (list B) :=
  match xs with
  | [] => ret []
  | x :: xs' => let! y := f x in let! ys := mapM f xs' in ret (y :: ys)
  end.

End Store.
Export Store.

(** ** The network *)

Module Net.

(** What [fetch] resolves with: [ok] and [status] of the response, and the
    body as [response.text()] delivers it ([None] when reading it fails). *)
Record Response := mkResponse {
  ok : bool;
  status : N;
  text : option jsstring
}.

(** [fetch(url)] rejects on a network or transport error, and resolves with
    a response otherwise, whatever its status. *)
Inductive fetch_result :=
| Rejected
| Resolved (r : Response).

(** A network that answers every request with the given status and body.
    [ok] is what the response reports: true for a status from 200 to 299. *)
Definition serve (ok : bool) (status : N) (body : jsstring) : jsstring -> fetch_result :=
  fun _ => Resolved (mkResponse ok status (Some body)).

Definition await_fetch (fetch : jsstring -> fetch_result) (url : jsstring) : M Response :=
  match fetch url with
  | Rejected => throw NetworkError
  | Resolved r => ret r
  end.

Definition await_text (r : Response) : M jsstring :=
  match text r with
  | None => throw BodyError
  | Some t => ret t
  end.

End Net.
Export Net.

(** ** [parseBrandsCSV] *)

Module CsvLoader.

(** JavaScript truthiness of a possibly undefined string. *)
Definition truthy (s : option jsstring) : bool :=
  match s with
  | Some (_ :: _) => true
  | _ => false
  end.

(** [tag || ''] *)
Definition or_empty (s : option jsstring) : jsstring :=
  if truthy s then default [] s else [].

(** [category === lit] *)
Definition is_category (category : option jsstring) (lit : string) : bool :=
  bool_decide (category = Some (str lit)).

(** [h => ({...h, brands: []})] *)
Definition clone_hall (l : loc) : M loc :=
  let! h := read_hall l in
  let! a := alloc_array [] in
  alloc_hall (Hall.mk (Hall.fields h) a).

(** [skeletonHalls.map(h => ({...h, brands: [] as Brand[]}))] *)
Definition clone_halls (skeletonHalls : loc) : M loc :=
  let! hs := read_array skeletonHalls in
  let! hs' := mapM clone_hall hs in
  alloc_array hs'.

(** [hs.findIndex(h => h.code === hallCode)], counting from [i]. *)
Fixpoint findIndex_from (i : nat) (hs : list loc) (hallCode : jsstring) : M (option nat) :=
  match hs with
  | [] => ret None
  | l :: hs' =>
      let! h := read_hall l in
      if bool_decide (Hall.code (Hall.fields h) = hallCode) then ret (Some i)
      else findIndex_from (S i) hs' hallCode
  end.

Definition findIndex (updatedHalls : loc) (hallCode : jsstring) : M (option nat) :=
  let! hs := read_array updatedHalls in
  findIndex_from 0 hs hallCode.

(** [`${hallCode}-${booth}`] *)
Definition brandId_of (hallCode booth : jsstring) : jsstring :=
  hallCode ++ HYPHEN :: booth.

(** [updatedHalls[hallIndex].brands.push(brand)] *)
Definition attach (updatedHalls : loc) (hallIndex : nat) (brand : loc) : M unit :=
  let! hs := read_array updatedHalls in
  match hs !! hallIndex with
  | None => throw TypeError
  | Some l => let! h := read_hall l in push (Hall.brands h) brand
  end.

Definition set_description (note : jsstring) (b : Brand.t) : Brand.t :=
  Brand.mk (Brand.id b) (Brand.booth b) (Brand.name b) note
           (Brand.models b) (Brand.fullModelList b).

Definition push_model (m : CarModel.t) (b : Brand.t) : Brand.t :=
  Brand.mk (Brand.id b) (Brand.booth b) (Brand.name b) (Brand.description b)
           (Brand.models b ++ [m]) (Brand.fullModelList b).

Definition push_fullModel (m : CarModel.t) (b : Brand.t) : Brand.t :=
  Brand.mk (Brand.id b) (Brand.booth b) (Brand.name b) (Brand.description b)
           (Brand.models b) (Brand.fullModelList b ++ [m]).

(** In-place update of the brand object at [brand]. *)
Definition modify_brand (brand : loc) (f : Brand.t -> Brand.t) : M unit :=
  let! b := read_brand brand in write_brand brand (f b).

(** The [if (category === 'Info') ... else if ...] chain of the row
    callback. [brand.fullModelList] is always an array here, so the
    guard [if (!brand.fullModelList)] never fires. *)
Definition apply_category (brand : loc) (category modelName tag note : option jsstring)
  : M unit :=
  if is_category category "Info" then
    if truthy note then modify_brand brand (set_description (default [] note))
    else ret tt
  else if is_category category "Key" then
    if truthy modelName then
      modify_brand brand
        (push_model (CarModel.mk (default [] modelName) (or_empty tag) true note))
    else ret tt
  else if is_category category "Normal" then
    if truthy modelName then
      modify_brand brand
        (push_fullModel (CarModel.mk (default [] modelName) (or_empty tag) false note))
    else ret tt
  else ret tt.

(** The body of [rows.forEach(row => ...)]. The local [brandMap] is
    threaded through. *)
Definition process_row (updatedHalls : loc) (brandMap : gmap jsstring loc)
    (row : jsstring) : M (gmap jsstring loc) :=
  match parse_cols row with
  | hallCode :: booth :: brandName :: rest =>
      let category := rest !! 0%nat in
      let modelName := rest !! 1%nat in
      let tag := rest !! 2%nat in
      let note := rest !! 3%nat in
      let! hallIndex := findIndex updatedHalls hallCode in
      match hallIndex with
      | None => ret brandMap
      | Some hallIndex =>
          let brandId := brandId_of hallCode booth in
          let! (brand, brandMap) :=
            match brandMap !! brandId with
            | Some brand => ret (brand, brandMap)
            | None =>
                let! brand := alloc_brand (Brand.mk brandId booth brandName [] [] []) in
                let! _ := attach updatedHalls hallIndex brand in
                ret (brand, <[brandId := brand]> brandMap)
            end in
          let! _ := apply_category brand category modelName tag note in
          ret brandMap
      end
  | _ => ret brandMap  (* cols.length < 3 *)
  end.

Fixpoint forEach_rows (updatedHalls : loc) (brandMap : gmap jsstring loc)
    (rows : list jsstring) : M (gmap jsstring loc) :=
  match rows with
  | [] => ret brandMap
  | row :: rows' =>
      let! brandMap' := process_row updatedHalls brandMap row in
      forEach_rows updatedHalls brandMap' rows'
  end.

(** [text.split('\n').slice(1).filter(r => r.trim() !== '')] *)
Definition rows_of (text : jsstring) : list jsstring :=
  filter (fun r => trim r ≠ []) (drop 1 (split_on NEWLINE text)).

(** The [try] block. *)
Definition parse_body (fetch : jsstring -> fetch_result) (csvUrl : jsstring)
    (skeletonHalls : loc) : M loc :=
  let! response := await_fetch fetch csvUrl in
  let! text := await_text response in
  let rows := rows_of text in
  let! updatedHalls := clone_halls skeletonHalls in
  let! _ := forEach_rows updatedHalls ∅ rows in
  ret updatedHalls.

(** The store and the loop variables after [rows] have gone through
    [forEach]: the part of the [try] block behind the two [await]s, with
    [brandMap] returned as well. *)
Definition run_rows (skeletonHalls : loc) (rows : list jsstring)
  : M (loc * gmap jsstring loc) :=
  let! updatedHalls := clone_halls skeletonHalls in
  let! brandMap := forEach_rows updatedHalls ∅ rows in
  ret (updatedHalls, brandMap).

Definition parseBrandsCSV (fetch : jsstring -> fetch_result) (csvUrl : jsstring)
    (skeletonHalls : loc) : M loc :=
  try_catch (parse_body fetch csvUrl skeletonHalls)
            (fun error => (* console.error(...) *) ret skeletonHalls).

End CsvLoader.
Export CsvLoader.

(** ** Reading the store back *)

Module View.

(** A hall as a value: its fields and its brands in order. *)
Abbreviation hall_view := (Hall.data * list Brand.t)%type.

Definition view_brands (h : heap) (arr : loc) : option (list Brand.t) :=
  ls ← arrays h !! arr; list.mapM (fun l => brands h !! l) ls.

Definition view_hall (h : heap) (l : loc) : option hall_view :=
  o ← halls h !! l;
  bs ← view_brands h (Hall.brands o);
  Some (Hall.fields o, bs).

(** The collection a [Hall[]] reference denotes in a store. *)
Definition view_halls (h : heap) (arr : loc) : option (list hall_view) :=
  ls ← arrays h !! arr; list.mapM (view_hall h) ls.

(** The collection the loop has built after [rows]. *)
Definition parsed_view (skeletonHalls : loc) (rows : list jsstring) (h0 : heap)
  : option (list hall_view) :=
  match run_rows skeletonHalls rows h0 with
  | Ret (uh, _) h => view_halls h uh
  | Throw _ _ => None
  end.

End View.
Export View.

(** ** Vocabulary of the statements about the splitter *)

Module Csv.

(** A field written the CSV way: content between two double quotes, every
    double quote of the content doubled. *)
Fixpoint escape (v : jsstring) : jsstring :=
  match v with
  | [] => []
  | c :: v' => if is_quote c then QUOTE :: QUOTE :: escape v' else c :: escape v'
  end.

Definition quoted (s : jsstring) : jsstring := QUOTE :: s ++ [QUOTE].

(** The normalization as the specification words it: strip one matching
    pair of surrounding double quotes if present. A pair needs two
    characters. *)
Definition strip_pair (s : jsstring) : jsstring :=
  match s with
  | c :: s' =>
      match reverse s' with
      | d :: r => if is_quote c && is_quote d then reverse r else s
      | [] => s
      end
  | [] => s
  end.

Definition spec_normalize (c : jsstring) : jsstring :=
  unescape_quotes (strip_pair (trim c)).

(** A field of a well-formed row: written bare, or between quotes. *)
Inductive field :=
| Bare (s : jsstring)
| Quoted (v : jsstring).

(** A bare field holds neither a comma nor a double quote. *)
Definition field_ok (f : field) : Prop :=
  match f with
  | Bare s => (COMMA ∉ s) ∧ (QUOTE ∉ s)
  | Quoted _ => True
  end.

Definition render_field (f : field) : jsstring :=
  match f with
  | Bare s => s
  | Quoted v => quoted (escape v)
  end.

(** What a field stands for: a bare field without the blanks around it,
    a quoted field exactly. *)
Definition field_value (f : field) : jsstring :=
  match f with
  | Bare s => trim s
  | Quoted v => v
  end.

(** The fields of a row, separated by commas. *)
Fixpoint render_row (f : field) (fs : list field) : jsstring :=
  match fs with
  | [] => render_field f
  | f' :: fs' => render_field f ++ COMMA :: render_row f' fs'
  end.

(** The claim about rows with fewer than three populated fields counts
    these. *)
Definition populated (cols : list jsstring) : nat :=
  length (filter (fun c => c ≠ []) cols).

(** Put [x] in front of the first field. *)
Definition glue (x : jsstring) (fs : list jsstring) : list jsstring :=
  match fs with
  | f :: fs' => (x ++ f) :: fs'
  | [] => [x]
  end.

End Csv.
Export Csv.

(** ** The parsed collection as a value *)

Module Abs.

(** The working copy right after cloning: every hall without brands. *)
Definition blank (ds : list Hall.data) : list hall_view :=
  (fun d => (d, [])) <$> ds.

Definition all_brands (V : list hall_view) : list Brand.t := V ≫= snd.

Definition brand_ids (V : list hall_view) : list jsstring :=
  Brand.id <$> all_brands V.

Definition has_brand (k : jsstring) (V : list hall_view) : bool :=
  bool_decide (k ∈ brand_ids V).

(** Index of the first hall whose code is [hallCode], counting from [i]. *)
Fixpoint find_hall_from (i : nat) (V : list hall_view) (hallCode : jsstring)
  : option nat :=
  match V with
  | [] => None
  | v :: V' =>
      if bool_decide (Hall.code v.1 = hallCode) then Some i
      else find_hall_from (S i) V' hallCode
  end.

Definition find_hall (V : list hall_view) (hallCode : jsstring) : option nat :=
  find_hall_from 0 V hallCode.

(** Apply [f] to the brand whose id is [k], wherever it is. *)
Definition alter_brand (k : jsstring) (f : Brand.t -> Brand.t)
    (V : list hall_view) : list hall_view :=
  (fun v : hall_view =>
     (v.1, (fun b => if bool_decide (Brand.id b = k) then f b else b) <$> v.2))
    <$> V.

(** Append [b] to the brands of the hall at index [i]. *)
Definition attach_brand (i : nat) (b : Brand.t) (V : list hall_view)
  : list hall_view :=
  alter (fun v : hall_view => (v.1, v.2 ++ [b])) i V.

(** What the category chain does to the row's brand. *)
Definition category_update (category modelName tag note : option jsstring)
  : Brand.t -> Brand.t :=
  if is_category category "Info" then
    if truthy note then set_description (default [] note) else id
  else if is_category category "Key" then
    if truthy modelName
    then push_model (CarModel.mk (default [] modelName) (or_empty tag) true note)
    else id
  else if is_category category "Normal" then
    if truthy modelName
    then push_fullModel (CarModel.mk (default [] modelName) (or_empty tag) false note)
    else id
  else id.

(** Create the brand [k] in hall [i] unless a brand [k] exists, then apply
    [f] to it. *)
Definition upsert_brand (i : nat) (k booth brandName : jsstring)
    (f : Brand.t -> Brand.t) (V : list hall_view) : list hall_view :=
  if has_brand k V then alter_brand k f V
  else attach_brand i (f (Brand.mk k booth brandName [] [] [])) V.

(** The effect of one row on the collection. *)
Definition row_effect (row : jsstring) (V : list hall_view) : list hall_view :=
  match parse_cols row with
  | hallCode :: booth :: brandName :: rest =>
      match find_hall V hallCode with
      | None => V
      | Some i =>
          upsert_brand i (brandId_of hallCode booth) booth brandName
            (category_update (rest !! 0%nat) (rest !! 1%nat)
                             (rest !! 2%nat) (rest !! 3%nat)) V
      end
  | _ => V
  end.

Definition rows_effect (rows : list jsstring) (V : list hall_view)
  : list hall_view :=
  foldl (fun V row => row_effect row V) V rows.

(** The composite id a row contributes to, when the row has at least
    three fields and its hall code is one of [ds]. *)
Definition row_key (ds : list Hall.data) (row : jsstring) : option jsstring :=
  match parse_cols row with
  | hallCode :: booth :: _ :: _ =>
      if bool_decide (hallCode ∈ Hall.code <$> ds)
      then Some (brandId_of hallCode booth) else None
  | _ => None
  end.

(** The brand with id [k], if the collection has one. *)
Definition lookup_brand (k : jsstring) (V : list hall_view) : option Brand.t :=
  head (filter (fun b => Brand.id b = k) (all_brands V)).

(** Every entry of every [models] list, and of every [fullModelList]. *)
Definition key_models (V : list hall_view) : list CarModel.t :=
  all_brands V ≫= Brand.models.

Definition full_models (V : list hall_view) : list CarModel.t :=
  all_brands V ≫= Brand.fullModelList.

(** Fields of the halls of a [Hall[]], all [clone_halls] reads of it. *)
Definition skeleton_fields (h : heap) (arr : loc) : option (list Hall.data) :=
  ls ← arrays h !! arr; list.mapM (fun l => Hall.fields <$> halls h !! l) ls.

End Abs.
Export Abs.

(** ** How the working copy lies in the store *)

Module Rep.

(** Every object that exists in [h0] is the same in [h]. *)
Definition preserved (h0 h : heap) : Prop :=
  (∀ l o, halls h0 !! l = Some o → halls h !! l = Some o) ∧
  (∀ l o, arrays h0 !! l = Some o → arrays h !! l = Some o) ∧
  (∀ l o, brands h0 !! l = Some o → brands h !! l = Some o).

(** One hall of the working copy: the hall object, its fields, its
    [brands] array and the brand objects that array refers to. *)
Record slot := mkslot {
  s_hall : loc;
  s_data : Hall.data;
  s_arr : loc;
  s_brands : list loc
}.

Definition slot_push (l : loc) (s : slot) : slot :=
  mkslot (s_hall s) (s_data s) (s_arr s) (s_brands s ++ [l]).

Definition slot_ok (h : heap) (s : slot) (v : hall_view) : Prop :=
  v.1 = s_data s ∧ Forall2 (fun l b => brands h !! l = Some b) (s_brands s) v.2.

(** The loop invariant of [forEach]: [updatedHalls] and the arrays it
    leads to were allocated after [h0], no array and no brand object is
    shared between two halls, and [brandMap] holds exactly the brands
    attached so far, each under its own id. *)
Record rep (h0 : heap) (uh : loc) (S : list slot) (V : list hall_view)
    (bm : gmap jsstring loc) (h : heap) : Prop := mkrep {
  rep_uh : arrays h !! uh = Some (s_hall <$> S);
  rep_hall : ∀ s, s ∈ S → halls h !! s_hall s = Some (Hall.mk (s_data s) (s_arr s));
  rep_arr : ∀ s, s ∈ S → arrays h !! s_arr s = Some (s_brands s);
  rep_arr_nodup : NoDup (uh :: (s_arr <$> S));
  rep_arr_fresh : ∀ a, a ∈ uh :: (s_arr <$> S) → (length (arrays h0) ≤ a)%nat;
  rep_brand_nodup : NoDup (S ≫= s_brands);
  rep_brand : ∀ l, l ∈ S ≫= s_brands →
    (length (brands h0) ≤ l)%nat ∧
    ∃ b, brands h !! l = Some b ∧ bm !! Brand.id b = Some l;
  rep_map : ∀ k l, bm !! k = Some l →
    l ∈ S ≫= s_brands ∧ ∃ b, brands h !! l = Some b ∧ Brand.id b = k;
  rep_view : Forall2 (slot_ok h) S V;
  rep_pres : preserved h0 h
}.

End Rep.
Export Rep.

(** ** The side panel's brand order *)

Module Sidebar.

Section sort.

Context {A : Type} (compareFn : A -> A -> Z).

(** [Array.prototype.sort] with a comparator is a stable sort: elements
    that compare equal keep their order. Insertion from the right, each
    element placed before the first one it does not compare greater than,
    is the stable sort written out. *)
Fixpoint insert_sorted (x : A) (ys : list A) : list A :=
  match ys with
  | [] => [x]
  | y :: ys' =>
      if (0 <? compareFn x y)%Z then y :: insert_sorted x ys' else x :: ys
  end.

Definition sort_with (xs : list A) : list A := foldr insert_sorted [] xs.

(** [x] may stand before [y]. *)
Definition le_by (x y : A) : Prop := (compareFn x y <= 0)%Z.

End sort.

Section sortedBrands.

(** [String.prototype.localeCompare]: negative, zero or positive. Its
    order is the host's collation, so it is a parameter here. *)
Variable localeCompare : jsstring -> jsstring -> Z.

(** [(a, b) => a.booth.localeCompare(b.booth)], on brand references
    paired with the objects they refer to. *)
Definition by_booth (a b : loc * Brand.t) : Z :=
  localeCompare (Brand.booth a.2) (Brand.booth b.2).

(** [arr.sort((a, b) => a.booth.localeCompare(b.booth))]: sorts the array
    at [arr] in place and returns it. The comparator reads the [booth] of
    the brand objects; they are read once, up front. *)
Definition sort_by_booth (arr : loc) : M loc :=
  let! xs := read_array arr in
  let! bs := mapM read_brand xs in
  let! _ := write_array arr (fst <$> sort_with by_booth (zip xs bs)) in
  ret arr.

(** [const sortedBrands = [...hall.brands].sort(...)] for the hall object
    at [hall]. *)
Definition sortedBrands (hall : loc) : M loc :=
  let! h := read_hall hall in
  let! xs := read_array (Hall.brands h) in
  let! copy := alloc_array xs in
  sort_by_booth copy.

End sortedBrands.

End Sidebar.
Export Sidebar.

(** ** Vocabulary of the statements about whole documents *)

Module Document.

(** [fs.join(sep)] with a one-character separator. *)
Fixpoint join (sep : N) (fs : list jsstring) : jsstring :=
  match fs with
  | [] => []
  | f :: fs' =>
      match fs' with
      | [] => f
      | _ :: _ => f ++ sep :: join sep fs'
      end
  end.

(** A string of white space and line terminators only. *)
Definition all_space (w : jsstring) : Prop := Forall (fun c => is_space c = true) w.

(** [row.split(',').map(c => c.trim())]: the column split of the earlier
    revision of [parseBrandsCSV], kept in the same file. *)
Definition split_trim (row : jsstring) : list jsstring :=
  trim <$> split_on COMMA row.

Section rows.

(** The fields of the skeleton's halls. *)
Variable ds : list Hall.data.

(** The rows that contribute to the brand [k], in document order. *)
Definition rows_for (k : jsstring) (rows : list jsstring) : list jsstring :=
  filter (fun r => row_key ds r = Some k) rows.

(** [cols[n]] of a row. *)
Definition col (n : nat) (row : jsstring) : option jsstring := parse_cols row !! n.

(** What a row contributes to its brand: an entry of [models], an entry
    of [fullModelList], a description. *)
Definition key_entries (row : jsstring) : list CarModel.t :=
  if is_category (col 3 row) "Key" && truthy (col 4 row)
  then [CarModel.mk (default [] (col 4 row)) (or_empty (col 5 row)) true (col 6 row)]
  else [].

Definition normal_entries (row : jsstring) : list CarModel.t :=
  if is_category (col 3 row) "Normal" && truthy (col 4 row)
  then [CarModel.mk (default [] (col 4 row)) (or_empty (col 5 row)) false (col 6 row)]
  else [].

Definition info_notes (row : jsstring) : list jsstring :=
  if is_category (col 3 row) "Info" && truthy (col 6 row)
  then [default [] (col 6 row)] else [].

(** The brand [k] as the document describes it: booth and name from its
    first row, the description of its last Info row that has one, its
    Key rows and its Normal rows in document order. *)
Definition brand_of (k : jsstring) (rows : list jsstring) : option Brand.t :=
  match rows_for k rows with
  | [] => None
  | r0 :: _ =>
      Some (Brand.mk k (default [] (col 1 r0)) (default [] (col 2 r0))
              (default [] (last (rows_for k rows ≫= info_notes)))
              (rows_for k rows ≫= key_entries)
              (rows_for k rows ≫= normal_entries))
  end.

(** The composite ids of the document, each once, in the order of their
    first rows. *)
Definition first_keys (rows : list jsstring) : list jsstring :=
  reverse (remove_dups (reverse (omap (row_key ds) rows))).

(** The index of the hall the first row of [k] names. *)
Definition home (rows : list jsstring) (k : jsstring) : option nat :=
  r0 ← head (rows_for k rows); hallCode ← col 0 r0; find_hall (blank ds) hallCode.

(** The brands of the hall at index [i]. *)
Definition hall_brands (i : nat) (rows : list jsstring) : list Brand.t :=
  omap (fun k => brand_of k rows)
       (filter (fun k => home rows k = Some i) (first_keys rows)).

End rows.

End Document.
Export Document.

(** ** The application state and the map's click handler *)

Module App.

(** The state of the [App] component. [halls] is the collection the
    [Hall[]] state denotes; a value of [null] is [None]. *)
Record state := mk {
  halls : list hall_view;
  isLoading : bool;
  selectedHallId : option jsstring;
  highlightedBrandId : option jsstring;
  isSearchOpen : bool
}.

(** [setSelectedHallId(hall.id); setHighlightedBrandId(null)] *)
Definition handleHallSelect (hall : hall_view) (st : state) : state :=
  mk (halls st) (isLoading st) (Some (Hall.id hall.1)) None (isSearchOpen st).


(** [halls.find(h => h.id === selectedHallId) || null] *)
Definition selectedHall (st : state) : option hall_view :=
  List.find (fun h : hall_view => bool_decide (Some (Hall.id h.1) = selectedHallId st))
            (halls st).

End App.

Module MapCanvas.

(** [if (!isDragging.current && hall.brands.length > 0) onHallSelect(hall)],
    with [onHallSelect] the [handleHallSelect] that [App] passes;
    [isDragging] is the value of the ref at the time of the click. *)
Definition handleHallClick (isDragging : bool) (hall : hall_view) (st : App.state)
  : App.state :=
  if negb isDragging && bool_decide (0 < length hall.2)%nat
  then App.handleHallSelect hall st else st.


End MapCanvas.

(** ** The side panel's cards *)

Module Cards.

(** The property names every plain object inherits from
    [Object.prototype]: reading one of them from an object that has no
    own property of that name gives a function or an object. *)
Definition Object_prototype_keys : list jsstring :=
  str <$> ["constructor"; "hasOwnProperty"; "isPrototypeOf";
           "propertyIsEnumerable"; "toLocaleString"; "toString"; "valueOf";
           "__proto__"; "__defineGetter__"; "__defineSetter__";
           "__lookupGetter__"; "__lookupSetter__"]%string.

(** [expandedBrands[k]] as a condition: the own property if there is one,
    else what the prototype gives. The map holds the own properties of
    the state object. *)
Definition lookup_truthy (expandedBrands : gmap jsstring bool) (k : jsstring) : bool :=
  match expandedBrands !! k with
  | Some b => b
  | None => bool_decide (k ∈ Object_prototype_keys)
  end.

(** [setExpandedBrands(prev => ({...prev, [brandId]: !prev[brandId]}))] *)
Definition toggleBrand (brandId : jsstring) (prev : gmap jsstring bool)
  : gmap jsstring bool :=
  <[brandId := negb (lookup_truthy prev brandId)]> prev.

(** The effect that runs when the hall changes: [setExpandedBrands({})]. *)
Definition reset_on_hall_change : gmap jsstring bool := ∅.

(** The state update of the effect that runs when a brand is highlighted:
    [if (highlightedBrandId && hall)
       setExpandedBrands(prev => ({...prev, [highlightedBrandId]: true}))]. *)
Definition expand_highlighted (highlightedBrandId : option jsstring)
    (hall : option hall_view) (prev : gmap jsstring bool) : gmap jsstring bool :=
  match highlightedBrandId, hall with
  | Some k, Some _ => if bool_decide (k ≠ []) then <[k := true]> prev else prev
  | _, _ => prev
  end.

Section cards.

Variable localeCompare : jsstring -> jsstring -> Z.

(** [[...hall.brands].sort((a, b) => a.booth.localeCompare(b.booth))] on
    the brands as values. *)
Definition sorted_brands (hall : hall_view) : list Brand.t :=
  sort_with (fun a b => localeCompare (Brand.booth a) (Brand.booth b)) hall.2.

(** One card per brand of [sortedBrands.map(brand => ...)]: its React
    key [brand.id] and [isExpanded = expandedBrands[brand.id] || false]. *)
Definition cards (expandedBrands : gmap jsstring bool) (hall : hall_view)
  : list (jsstring * bool) :=
  (fun b => (Brand.id b, lookup_truthy expandedBrands (Brand.id b) || false))
    <$> sorted_brands hall.

End cards.

(** The three markers [getTagStyle] looks for. *)
Definition NEW_CAR : jsstring := [26032; 36710].
Definition DEBUT : jsstring := [39318; 21457].
Definition REDESIGN : jsstring := [25442; 20195].

(** [s.startsWith(t)] *)
Fixpoint startsWith (s t : jsstring) {struct t} : bool :=
  match t, s with
  | [], _ => true
  | _ :: _, [] => false
  | d :: t', c :: s' => (c =? d) && startsWith s' t'
  end.

(** [s.includes(t)] *)
Fixpoint includes (s t : jsstring) : bool :=
  startsWith s t ||
  match s with
  | [] => false
  | _ :: s' => includes s' t
  end.

(** [getTagStyle] *)
Definition getTagStyle (tag : jsstring) : string :=
  if includes tag NEW_CAR
  then "bg-red-900/40 text-red-300 border border-red-900/50"
  else if includes tag DEBUT
  then "bg-purple-900/40 text-purple-300 border border-purple-900/50"
  else if includes tag REDESIGN
  then "bg-blue-900/40 text-blue-300 border border-blue-900/50"
  else "bg-slate-800 text-slate-300 border border-slate-700".

End Cards.
Export Cards.

(** ** Concrete stores and documents *)

Module Examples.

Definition hall_17_2 : Hall.data :=
  Hall.mkdata (str "h17.2") (str "17.2") 2 NEV.

(** A skeleton of one hall without brands: the array at location 0 holds
    the hall object 0, whose [brands] array is at location 1. *)
Definition store1 : heap :=
  mkheap [Hall.mk hall_17_2 1%nat] [[0%nat]; []] [].

Definition old_brand : Brand.t :=
  Brand.mk (str "17.2-Z99") (str "Z99") (str "Old") (str "stale") [] [].

(** The same skeleton, its hall already holding a brand. *)
Definition store1_with_brand : heap :=
  mkheap [Hall.mk hall_17_2 1%nat] [[0%nat]; [0%nat]] [old_brand].

Definition hall_A_B : Hall.data := Hall.mkdata (str "h1") (str "A-B") 1 LUXURY.
Definition hall_A : Hall.data := Hall.mkdata (str "h2") (str "A") 1 PASSENGER.

(** A skeleton of two halls whose codes are A-B and A. *)
Definition store2 : heap :=
  mkheap [Hall.mk hall_A_B 1%nat; Hall.mk hall_A 2%nat] [[0%nat; 1%nat]; []; []] [].

Definition brand_B10 : Brand.t :=
  Brand.mk (str "17.2-B10") (str "B10") (str "Nio") [] [] [].
Definition brand_A1 : Brand.t :=
  Brand.mk (str "17.2-A1") (str "A1") (str "BYD") [] [] [].

(** A parsed hall: booth B10 was seen first, booth A1 second. *)
Definition store3 : heap :=
  mkheap [Hall.mk hall_17_2 0%nat] [[0%nat; 1%nat]] [brand_B10; brand_A1].

Definition header : jsstring := str "Hall,Booth,Brand,Category,Name,Tag,Note".

Definition lines (ls : list jsstring) : jsstring :=
  foldr (fun l acc => l ++ NEWLINE :: acc) [] ls.

Definition doc1 : jsstring :=
  lines [header;
         str "17.2,A01,BYD,Info,,,Great brand";
         str "17.2,A01,BYD,Key,Seal,NEW";
         str "17.2,A01,BYD,Normal,Han,,note"].

Definition url : jsstring := str "/brands.csv".

(** Order by length: a consistent comparator to stand for
    [localeCompare] in examples. *)
Definition by_length (a b : jsstring) : Z :=
  (Z.of_nat (length a) - Z.of_nat (length b))%Z.

End Examples.
Export Examples.

(** ** The zoom level of the map *)

(** JavaScript numbers are IEEE 754 doubles: the kernel's primitive
    floats. The literals are the source's; each stands for the nearest
    double, as in JavaScript. *)
Module Zoom.
Import PrimFloat.

(** [Math.min(x, y)] and [Math.max(x, y)] on IEEE 754 doubles: NaN if an
    argument is NaN, and of two zeros the negative one is the smaller. *)
Definition Math_min (x y : float) : float :=
  if is_nan x || is_nan y then nan
  else if (x <? y)%float then x
  else if (y <? x)%float then y
  else if get_sign x then x else y.

Definition Math_max (x y : float) : float :=
  if is_nan x || is_nan y then nan
  else if (x <? y)%float then y
  else if (y <? x)%float then x
  else if get_sign x then y else x.

(** [window.innerWidth < 768 ? 0.34 : 0.75] *)
Definition defaultScale (narrow : bool) : float :=
  if narrow then 0.34%float else 0.75%float.

(** [s => Math.min(s + 0.2, 3)] *)
Definition handleZoomIn (s : float) : float := Math_min (s + 0.2)%float 3%float.

(** [s => Math.max(s - 0.2, 0.3)] *)
Definition handleZoomOut (s : float) : float := Math_max (s - 0.2)%float 0.3%float.

(** What the user can do to the zoom level; a reset reads the width of
    the window again. *)
Inductive action := ZoomIn | ZoomOut | Reset (narrow : bool).

Definition step (s : float) (a : action) : float :=
  match a with
  | ZoomIn => handleZoomIn s
  | ZoomOut => handleZoomOut s
  | Reset narrow => defaultScale narrow
  end.

(** The scale after a sequence of actions, from the initial state. *)
Definition scale_after (narrow : bool) (acts : list action) : float :=
  foldl step (defaultScale narrow) acts.

(** [0.3 <= s && s <= 3] *)
Definition in_range (s : float) : bool := ((0.3 <=? s) && (s <=? 3))%float.

Fixpoint add_level (x : float) (l : list float) : list float :=
  match l with
  | [] => [x]
  | y :: l' => if (x =? y)%float then l else y :: add_level x l'
  end.

Fixpoint close (n : nat) (l : list float) : list float :=
  match n with
  | O => l
  | S n' =>
      close n' (foldr (fun x acc => add_level (handleZoomIn x)
                                      (add_level (handleZoomOut x) acc)) l l)
  end.

(** Every zoom level the buttons can produce. *)
Definition levels : list float :=
  Eval vm_compute in close 40 [0.34%float; 0.75%float].

End Zoom.

(** ** A document and an application state *)

Module Scenes.

(** Rows for two booths of hall 17.2; the second booth comes first. *)
Definition rows1 : list jsstring :=
  [str "17.2,B10,Nio,Key,ET5,NEW";
   str "17.2,A01,BYD,Info,,,Great brand";
   str "17.2,A01,BYD,Key,Seal,NEW";
   str "17.2,B10,Nio,Info,,,First note";
   str "17.2,A01,BYD,Normal,Han,,note";
   str "17.2,B10,Nio,Info,,,Second note"].

Definition hall_18_2 : Hall.data :=
  Hall.mkdata (str "h18.2") (str "18.2") 2 PASSENGER.

(** What [App] holds after a load: hall 17.2 with two brands, hall 18.2
    without any. *)
Definition loaded : App.state :=
  App.mk [(hall_17_2, [brand_B10; brand_A1]); (hall_18_2, [])] false None None false.

End Scenes.
Export Scenes.

(** Closes [x ∉ l] for closed [x] and [l]. *)
Ltac not_in_list :=
  vm_compute; let H := fresh "H" in
  intros H; repeat (apply elem_of_cons in H as [H|H]; [discriminate|]);
  by apply elem_of_nil in H.

(* === THEOREMS === *)

(** ** The row splitter *)

Section splitter_facts.

Implicit Types (s a b row body v : jsstring) (c : N).

Lemma split_row_not_nil row : split_row row ≠ [].
Proof. destruct row as [|c r]; simpl; [done|]. by repeat case_match. Qed.

Lemma even_quotes_app a b :
  even_quotes (a ++ b) = if even_quotes b then even_quotes a else negb (even_quotes a).
Proof.
  induction a as [|c a IH]; simpl.
  - by destruct (even_quotes b).
  - rewrite IH. destruct (is_quote c), (even_quotes b), (even_quotes a); done.
Qed.

(** A comma followed by an even number of quotes separates. *)
Lemma split_row_sep a b :
  even_quotes b = true →
  split_row (a ++ COMMA :: b) = split_row a ++ split_row b.
Proof.
  intros Hb. induction a as [|c a IH]; simpl.
  - by rewrite Hb.
  - rewrite IH. rewrite even_quotes_app. simpl. rewrite Hb.
    destruct (is_comma c && even_quotes a); [done|].
    destruct (split_row a) as [|f fs] eqn:E; [by apply split_row_not_nil in E|done].
  Qed.

(** A stretch in which every comma is followed by an odd number of quotes
    is not cut. *)
Lemma split_row_glue x y :
  (∀ x1 x2, x = x1 ++ COMMA :: x2 → even_quotes (x2 ++ y) = false) →
  split_row (x ++ y) = glue x (split_row y).
Proof.
  pose proof (split_row_not_nil y) as Hy.
  induction x as [|c x IH]; intros H; simpl.
  - by destruct (split_row y).
  - rewrite IH; last first.
    { intros x1 x2 ->. apply (H (c :: x1) x2). done. }
    destruct (is_comma c) eqn:Ec; simpl.
    + apply N.eqb_eq in Ec as ->. rewrite (H [] x); [|done].
      by destruct (split_row y).
    + by destruct (split_row y).
Qed.

Lemma even_quotes_escape v : even_quotes (escape v) = true.
Proof.
  induction v as [|c v IH]; simpl; [done|].
  destruct (is_quote c) eqn:E; simpl; rewrite ?E; simpl; by rewrite IH.
Qed.

Lemma escape_suffix v x1 x2 :
  escape v = x1 ++ COMMA :: x2 → even_quotes x2 = true.
Proof.
  revert x1. induction v as [|c v IH]; intros x1; simpl.
  - by destruct x1.
  - destruct (is_quote c) eqn:E.
    + destruct x1 as [|d1 [|d2 x1]]; simpl; intros [=]; subst; eauto.
    + destruct x1 as [|d1 x1]; simpl; intros [=]; subst; eauto using even_quotes_escape.
Qed.

Lemma even_quotes_quoted v : even_quotes (quoted (escape v)) = true.
Proof.
  unfold quoted. simpl. rewrite even_quotes_app. simpl.
  by rewrite even_quotes_escape.
Qed.

(** A quoted field followed by an even number of quotes stays whole. *)
Lemma split_row_quoted v post :
  even_quotes post = true →
  split_row (quoted (escape v) ++ post) = glue (quoted (escape v)) (split_row post).
Proof.
  intros Hp. apply split_row_glue. intros x1 x2 E.
  rewrite even_quotes_app, Hp.
  unfold quoted in E. destruct x1 as [|d x1]; [done|].
  simpl in E. injection E as <- E.
  assert (∀ (w x1 x2 : jsstring), w ++ [QUOTE] = x1 ++ COMMA :: x2 →
            ∃ x2', x2 = x2' ++ [QUOTE] ∧ w = x1 ++ COMMA :: x2') as Hsplit.
  { clear. intros w. induction w as [|c w IH]; intros x1 x2 E.
    - destruct x1 as [|? [|? ?]]; done.
    - destruct x1 as [|d x1]; simpl in E; injection E as -> E.
      + exists w. done.
      + destruct (IH _ _ E) as (x2' & -> & ->). by exists x2'. }
  destruct (Hsplit _ _ _ E) as (x2' & -> & E').
  rewrite even_quotes_app. simpl. by rewrite (escape_suffix _ _ _ E').
Qed.

Lemma unescape_cons_other c s :
  is_quote c = false → unescape_quotes (c :: s) = c :: unescape_quotes s.
Proof. intros E. destruct s; simpl; by rewrite ?E. Qed.

Lemma unescape_escape v : unescape_quotes (escape v) = v.
Proof.
  induction v as [|c v IH]; [done|]. simpl.
  destruct (is_quote c) eqn:E.
  - simpl. rewrite IH. f_equal. symmetry. by apply N.eqb_eq.
  - by rewrite unescape_cons_other, IH.
Qed.

Lemma trimStart_not_space c s : is_space c = false → trimStart (c :: s) = c :: s.
Proof. intros H. simpl. by rewrite H. Qed.

Lemma trim_quoted s : trim (quoted s) = quoted s.
Proof.
  unfold trim, trimEnd, quoted. rewrite trimStart_not_space by done.
  rewrite reverse_cons, reverse_app. simpl.
  by rewrite reverse_cons, reverse_app, reverse_involutive.
Qed.

Lemma normalize_quoted v : normalize (quoted (escape v)) = v.
Proof.
  unfold normalize. rewrite trim_quoted.
  assert (endsWith_quote (quoted (escape v)) = true) as ->.
  { unfold endsWith_quote, quoted. by rewrite app_comm_cons, last_snoc. }
  simpl. unfold slice_1_m1, quoted. simpl.
  rewrite length_app. simpl. rewrite drop_0.
  replace (length (escape v) + 1 - 0)%nat with (S (length (escape v))) by lia.
  simpl. rewrite Nat.sub_0_r, take_app_length. apply unescape_escape.
Qed.

End splitter_facts.

(** ** The store: frames and allocation *)

Section store_facts.

Implicit Types (h : heap) (l : loc).

Lemma preserved_refl h : preserved h h.
Proof. by repeat split. Qed.

Lemma preserved_trans h1 h2 h3 : preserved h1 h2 → preserved h2 h3 → preserved h1 h3.
Proof. intros (?&?&?) (?&?&?). repeat split; eauto. Qed.

Lemma preserved_lengths h0 h :
  preserved h0 h →
  (length (halls h0) ≤ length (halls h) ∧
   length (arrays h0) ≤ length (arrays h) ∧
   length (brands h0) ≤ length (brands h))%nat.
Proof.
  assert (∀ A (x y : list A), (∀ l o, x !! l = Some o → y !! l = Some o) →
            (length x ≤ length y)%nat) as Hlen.
  { intros A x y H. destruct (decide (length x = 0)%nat) as [->|Hn]; [lia|].
    destruct (lookup_lt_is_Some_2 x (length x - 1)) as [o Ho]; [lia|].
    apply H, lookup_lt_Some in Ho. lia. }
  intros (?&?&?). split_and!; by apply Hlen.
Qed.

Lemma preserved_alloc_hall h o :
  preserved h (mkheap (halls h ++ [o]) (arrays h) (brands h)).
Proof. repeat split; simpl; eauto using lookup_app_l_Some. Qed.

Lemma preserved_alloc_array h xs :
  preserved h (mkheap (halls h) (arrays h ++ [xs]) (brands h)).
Proof. repeat split; simpl; eauto using lookup_app_l_Some. Qed.

Lemma bind_Ret {A B} (m : M A) (k : A → M B) h a h' :
  m h = Ret a h' → bind m k h = k a h'.
Proof. unfold bind. by intros ->. Qed.

Lemma bind_Throw {A B} (m : M A) (k : A → M B) h e h' :
  m h = Throw e h' → bind m k h = Throw e h'.
Proof. unfold bind. by intros ->. Qed.

Lemma read_hall_Some h l o : halls h !! l = Some o → read_hall l h = Ret o h.
Proof. unfold read_hall. by intros ->. Qed.

Lemma read_array_Some h l xs : arrays h !! l = Some xs → read_array l h = Ret xs h.
Proof. unfold read_array. by intros ->. Qed.

Lemma read_brand_Some h l b : brands h !! l = Some b → read_brand l h = Ret b h.
Proof. unfold read_brand. by intros ->. Qed.

(** [clone_hall] reads one hall and allocates one empty array and one
    hall object that refers to it. *)
Lemma clone_hall_Some h l o :
  halls h !! l = Some o →
  clone_hall l h =
    Ret (length (halls h))
        (mkheap (halls h ++ [Hall.mk (Hall.fields o) (length (arrays h))])
                (arrays h ++ [[]]) (brands h)).
Proof. intros H. unfold clone_hall. by rewrite (bind_Ret _ _ _ _ _ (read_hall_Some _ _ _ H)). Qed.

Lemma clone_hall_None h l :
  halls h !! l = None → clone_hall l h = Throw TypeError h.
Proof. intros H. unfold clone_hall, bind, read_hall. by rewrite H. Qed.

(** The hall objects [mapM clone_hall] creates, as slots without brands. *)
Lemma mapM_clone_hall ls : ∀ h,
  match mapM clone_hall ls h with
  | Ret locs h' =>
      ∃ S, locs = s_hall <$> S ∧ preserved h h' ∧ brands h' = brands h ∧
        (∀ s, s ∈ S →
           halls h' !! s_hall s = Some (Hall.mk (s_data s) (s_arr s)) ∧
           arrays h' !! s_arr s = Some [] ∧ s_brands s = [] ∧
           (length (arrays h) ≤ s_arr s)%nat) ∧
        NoDup (s_arr <$> S) ∧
        (∀ ds, Forall2 (fun l d => Hall.fields <$> halls h !! l = Some d) ls ds →
               s_data <$> S = ds)
  | Throw e h' =>
      preserved h h' ∧
      ¬ ∃ ds, Forall2 (fun l d => Hall.fields <$> halls h !! l = Some d) ls ds
  end.
Proof.
  induction ls as [|l ls IH]; intros h; simpl.
  - exists []. split_and!;
      [done|apply preserved_refl|done|by intros s ?%elem_of_nil|apply NoDup_nil_2|].
    intros ds Hds. by apply Forall2_nil_inv_l in Hds.
  - destruct (halls h !! l) as [o|] eqn:Hl.
    + rewrite (bind_Ret _ _ _ _ _ (clone_hall_Some _ _ _ Hl)).
      set (h1 := mkheap _ _ _).
      assert (preserved h h1) as Hp1.
      { repeat split; simpl; eauto using lookup_app_l_Some. }
      specialize (IH h1). unfold bind at 1.
      destruct (mapM clone_hall ls h1) as [locs h'|e h'].
      * destruct IH as (S & -> & Hp & Hb & HS & Hnd & Hds). simpl.
        exists (mkslot (length (halls h)) (Hall.fields o) (length (arrays h)) [] :: S).
        split; [done|]. split; [by eapply preserved_trans|]. split; [done|].
        split; [|split].
        -- intros s [->|Hs]%elem_of_cons; simpl.
           ++ destruct Hp as (Hph & Hpa & _). split; [|split; [|split]]; try done.
              ** apply Hph. subst h1. simpl. by apply list_lookup_middle.
              ** apply Hpa. subst h1. simpl. by apply list_lookup_middle.
           ++ destruct (HS s Hs) as (?&?&?&Hle). repeat split; try done.
              subst h1. simpl in Hle. rewrite length_app in Hle. simpl in Hle. lia.
        -- simpl. apply NoDup_cons. split; [|done].
           intros (s & Es & Hs)%list_elem_of_fmap.
           destruct (HS s Hs) as (_&_&_&Hle). subst h1. simpl in Hle.
           rewrite length_app in Hle. simpl in Hle. lia.
        -- intros ds Hds'. apply Forall2_cons_inv_l in Hds' as (d & ds' & Hd & Hds' & ->).
           simpl. rewrite Hl in Hd. injection Hd as <-. f_equal. apply Hds.
           eapply Forall2_impl; [done|]. intros l' d' Hd'. cbv beta in Hd' |- *.
           destruct (halls h !! l') as [o'|] eqn:E; [|done].
           destruct Hp1 as (Hph&_). by rewrite (Hph _ _ E).
      * destruct IH as (Hp & Hno). split; [by eapply preserved_trans|].
        intros (ds & Hds). apply Hno.
        apply Forall2_cons_inv_l in Hds as (d & ds' & Hd & Hds' & ->).
        exists ds'. eapply Forall2_impl; [done|]. intros l' d' Hd'. cbv beta in Hd' |- *.
        destruct (halls h !! l') as [o'|] eqn:E; [|done].
        destruct Hp1 as (Hph&_). by rewrite (Hph _ _ E).
    + rewrite (bind_Throw _ _ _ _ _ (clone_hall_None _ _ Hl)).
      split; [apply preserved_refl|].
      intros (ds & Hds). apply Forall2_cons_inv_l in Hds as (d & ds' & Hd & _).
      by rewrite Hl in Hd.
Qed.

End store_facts.

(** ** The loop invariant *)

Section invariant.

Implicit Types (h : heap) (l : loc) (S : list slot) (V : list hall_view)
  (bm : gmap jsstring loc).

Lemma skeleton_fields_Some h sk ds :
  skeleton_fields h sk = Some ds ↔
  ∃ ls, arrays h !! sk = Some ls ∧
        Forall2 (fun l d => Hall.fields <$> halls h !! l = Some d) ls ds.
Proof.
  unfold skeleton_fields. destruct (arrays h !! sk) as [ls|]; simpl.
  - rewrite mapM_Some. split; [by exists ls|]. by intros (? & [= <-] & ?).
  - split; [done|]. by intros (? & [=] & _).
Qed.

(** Cloning either fails and leaves every existing object as it was, or
    yields a working copy that satisfies the invariant, with no brand. *)
Lemma clone_halls_spec h0 sk :
  match clone_halls sk h0 with
  | Ret uh h =>
      ∃ S, rep h0 uh S (blank (s_data <$> S)) ∅ h ∧
           (∀ ds, skeleton_fields h0 sk = Some ds → s_data <$> S = ds)
  | Throw e h => preserved h0 h ∧ skeleton_fields h0 sk = None
  end.
Proof.
  unfold clone_halls.
  destruct (arrays h0 !! sk) as [ls|] eqn:Hsk.
  - rewrite (bind_Ret _ _ _ _ _ (read_array_Some _ _ _ Hsk)).
    pose proof (mapM_clone_hall ls h0) as Hm. unfold bind at 1.
    destruct (mapM clone_hall ls h0) as [locs h1|e h1].
    + destruct Hm as (S & -> & Hp & Hb & HS & Hnd & Hds).
      unfold alloc_array. exists S. split.
      * destruct (preserved_lengths _ _ Hp) as (_ & Hla & _).
        constructor; simpl.
        -- by apply list_lookup_middle.
        -- intros s Hs. by destruct (HS s Hs) as (?&_).
        -- intros s Hs. destruct (HS s Hs) as (_&Ha&->&_).
           by apply lookup_app_l_Some.
        -- apply NoDup_cons. split; [|done].
           intros (s & Es & Hs)%list_elem_of_fmap.
           destruct (HS s Hs) as (_&Ha&_). apply lookup_lt_Some in Ha. lia.
        -- intros a [->|(s & -> & Hs)%list_elem_of_fmap]%elem_of_cons; [done|].
           by destruct (HS s Hs) as (_&_&_&?).
        -- assert (S ≫= s_brands = []) as ->; [|apply NoDup_nil_2].
           clear -HS. induction S as [|s S IH]; [done|]. simpl.
           destruct (HS s) as (_&_&->&_); [left|]. simpl. apply IH.
           intros s' Hs'. apply HS. by right.
        -- intros l (s & Hl & Hs)%list_elem_of_bind.
           destruct (HS s Hs) as (_&_&E&_). rewrite E in Hl. by apply elem_of_nil in Hl.
        -- intros k l Hk. by rewrite lookup_empty in Hk.
        -- unfold blank. apply Forall2_fmap_r.
           apply Forall2_same_length_lookup. split; [by rewrite length_fmap|].
           intros i s d Hs Hd. rewrite list_lookup_fmap, Hs in Hd. injection Hd as <-.
           split; [done|]. simpl.
           destruct (HS s) as (_&_&->&_); [by eapply list_elem_of_lookup_2|]. constructor.
        -- eapply preserved_trans; [done|]. apply preserved_alloc_array.
      * intros ds (ls' & Hls' & Hds')%skeleton_fields_Some.
        rewrite Hsk in Hls'. injection Hls' as <-. by apply Hds.
    + destruct Hm as (Hp & Hno). split; [done|].
      destruct (skeleton_fields h0 sk) as [ds|] eqn:E; [|done].
      exfalso. apply Hno. apply skeleton_fields_Some in E as (ls' & Hls' & Hds').
      rewrite Hsk in Hls'. injection Hls' as <-. by exists ds.
  - unfold bind, read_array. rewrite Hsk. split; [apply preserved_refl|].
    unfold skeleton_fields. by rewrite Hsk.
Qed.

(** Under the invariant, the store denotes the collection [V]. *)
Lemma rep_view_halls h0 uh S V bm h :
  rep h0 uh S V bm h → view_halls h uh = Some V.
Proof.
  intros R. unfold view_halls. rewrite (rep_uh _ _ _ _ _ _ R). simpl.
  apply mapM_Some. apply Forall2_fmap_l.
  apply Forall2_same_length_lookup. split; [by eapply Forall2_length, rep_view|].
  intros i s v Hs Hv.
  pose proof (Forall2_lookup_lr _ _ _ _ _ _ (rep_view _ _ _ _ _ _ R) Hs Hv) as [Hd Hb].
  apply list_elem_of_lookup_2 in Hs.
  cbv beta. unfold compose, view_hall. rewrite (rep_hall _ _ _ _ _ _ R s Hs). simpl.
  unfold view_brands. rewrite (rep_arr _ _ _ _ _ _ R s Hs). simpl.
  apply mapM_Some in Hb. rewrite Hb. simpl. destruct v. simpl in *. by subst.
Qed.

Lemma rep_brand_ids h0 uh S V bm h k :
  rep h0 uh S V bm h → (k ∈ brand_ids V ↔ is_Some (bm !! k)).
Proof.
  intros R. unfold brand_ids, all_brands. split.
  - intros (b & -> & (v & Hb & Hv)%list_elem_of_bind)%list_elem_of_fmap.
    apply list_elem_of_lookup in Hv as (i & Hv).
    destruct (Forall2_lookup_r _ _ _ _ _ (rep_view _ _ _ _ _ _ R) Hv) as (s & Hs & _ & Hbs).
    apply list_elem_of_lookup in Hb as (j & Hb).
    destruct (Forall2_lookup_r _ _ _ _ _ Hbs Hb) as (l & Hl & Hlb).
    destruct (rep_brand _ _ _ _ _ _ R l) as (_ & b' & Hb' & Hm).
    { apply list_elem_of_bind. exists s. eauto using list_elem_of_lookup_2. }
    rewrite Hlb in Hb'. injection Hb' as <-. eauto.
  - intros (l & Hk).
    destruct (rep_map _ _ _ _ _ _ R k l Hk) as ((s & Hl & Hs)%list_elem_of_bind & b & Hb & <-).
    apply list_elem_of_lookup in Hs as (i & Hs).
    destruct (Forall2_lookup_l _ _ _ _ _ (rep_view _ _ _ _ _ _ R) Hs) as (v & Hv & _ & Hbs).
    apply list_elem_of_lookup in Hl as (j & Hl).
    destruct (Forall2_lookup_l _ _ _ _ _ Hbs Hl) as (b' & Hb' & Hlb).
    rewrite Hb in Hlb. injection Hlb as <-.
    apply list_elem_of_fmap. exists b. split; [done|].
    apply list_elem_of_bind. exists v. eauto using list_elem_of_lookup_2.
Qed.

End invariant.

Section row_step.

Implicit Types (h : heap) (l : loc) (S : list slot) (V : list hall_view)
  (bm : gmap jsstring loc) (b : Brand.t).

Lemma findIndex_from_rep h S V i hallCode :
  (∀ s, s ∈ S → halls h !! s_hall s = Some (Hall.mk (s_data s) (s_arr s))) →
  Forall2 (slot_ok h) S V →
  findIndex_from i (s_hall <$> S) hallCode h = Ret (find_hall_from i V hallCode) h.
Proof.
  intros HS HV. revert i. induction HV as [|s v S V [Hd _] _ IH]; intros i; [done|].
  simpl. rewrite (bind_Ret _ _ _ _ _ (read_hall_Some _ _ _ (HS s ltac:(left)))).
  simpl. rewrite Hd. case_bool_decide; [done|].
  apply IH. intros s' Hs'. apply HS. by right.
Qed.

Lemma findIndex_rep h0 uh S V bm h hallCode :
  rep h0 uh S V bm h →
  findIndex uh hallCode h = Ret (find_hall V hallCode) h.
Proof.
  intros R. unfold findIndex.
  rewrite (bind_Ret _ _ _ _ _ (read_array_Some _ _ _ (rep_uh _ _ _ _ _ _ R))).
  apply findIndex_from_rep; [apply R|apply R].
Qed.

Lemma find_hall_from_Some i V hallCode j :
  find_hall_from i V hallCode = Some j →
  (i ≤ j)%nat ∧ ∃ v, V !! (j - i)%nat = Some v ∧ Hall.code v.1 = hallCode.
Proof.
  revert i. induction V as [|v V IH]; intros i; simpl; [done|].
  case_bool_decide as E.
  - intros [= <-]. split; [lia|]. exists v. by rewrite Nat.sub_diag.
  - intros (Hle & v' & Hv' & Hc)%IH. split; [lia|]. exists v'. split; [|done].
    replace (j - i)%nat with (S (j - S i)) by lia. done.
Qed.

Lemma find_hall_from_None i V hallCode :
  find_hall_from i V hallCode = None ↔ hallCode ∉ (fun v : hall_view => Hall.code v.1) <$> V.
Proof.
  revert i. induction V as [|v V IH]; intros i; simpl.
  - split; [|done]. intros _ H. by apply elem_of_nil in H.
  - rewrite not_elem_of_cons. case_bool_decide as E.
    + split; [done|]. by intros [? _].
    + rewrite IH. split; [|by intros [_ ?]]. intros ?. split; [congruence|done].
Qed.

Lemma category_update_id c m t n b :
  Brand.id (category_update c m t n b) = Brand.id b.
Proof. unfold category_update. by repeat case_match. Qed.

Lemma heap_insert_same h l b :
  brands h !! l = Some b →
  mkheap (halls h) (arrays h) (<[l := b]> (brands h)) = h.
Proof. intros H. rewrite list_insert_id by done. by destruct h. Qed.

Lemma modify_brand_spec h l b f :
  brands h !! l = Some b →
  modify_brand l f h = Ret tt (mkheap (halls h) (arrays h) (<[l := f b]> (brands h))).
Proof.
  intros H. unfold modify_brand.
  rewrite (bind_Ret _ _ _ _ _ (read_brand_Some _ _ _ H)).
  unfold write_brand. by rewrite H.
Qed.

(** The category chain is an in-place update of the brand object. *)
Lemma apply_category_spec h l b c m t n :
  brands h !! l = Some b →
  apply_category l c m t n h =
    Ret tt (mkheap (halls h) (arrays h)
                   (<[l := category_update c m t n b]> (brands h))).
Proof.
  intros H. unfold apply_category, category_update.
  repeat case_match; rewrite ?(modify_brand_spec _ _ _ _ H); try done;
    unfold ret; by rewrite heap_insert_same.
Qed.

Lemma rep_lookup_slot h0 uh S V bm h i s :
  rep h0 uh S V bm h → S !! i = Some s →
  halls h !! s_hall s = Some (Hall.mk (s_data s) (s_arr s)) ∧
  arrays h !! s_arr s = Some (s_brands s) ∧ s_arr s ≠ uh ∧
  (length (arrays h0) ≤ s_arr s)%nat ∧
  (∀ j s', S !! j = Some s' → s_arr s' = s_arr s → j = i).
Proof.
  intros R Hs. pose proof (list_elem_of_lookup_2 _ _ _ Hs) as Hin.
  pose proof (rep_arr_nodup _ _ _ _ _ _ R) as [Hn1 Hn2]%NoDup_cons.
  split_and!; try by apply R.
  - intros E. apply Hn1. rewrite <- E. by apply list_elem_of_fmap_2.
  - apply (rep_arr_fresh _ _ _ _ _ _ R). right. by apply list_elem_of_fmap_2.
  - intros j s' Hs' E. eapply (NoDup_lookup _ _ _ _ Hn2).
    + by rewrite list_lookup_fmap, Hs'.
    + by rewrite list_lookup_fmap, Hs, E.
Qed.

(** Updating the brand object registered under [k] updates the brand [k]
    of the collection. *)
Lemma rep_alter h0 uh S V bm h k l b f :
  rep h0 uh S V bm h → bm !! k = Some l → brands h !! l = Some b →
  (∀ b', Brand.id (f b') = Brand.id b') →
  rep h0 uh S (alter_brand k f V) bm
      (mkheap (halls h) (arrays h) (<[l := f b]> (brands h))).
Proof.
  intros R Hk Hb Hf.
  destruct (rep_map _ _ _ _ _ _ R k l Hk) as (Hl & b0 & Hb0 & Hid).
  rewrite Hb in Hb0. injection Hb0 as <-.
  pose proof (lookup_lt_Some _ _ _ Hb) as Hlt.
  assert (∀ l' b', l' ∈ S ≫= s_brands → brands h !! l' = Some b' →
            <[l := f b]> (brands h) !! l' =
              Some (if bool_decide (Brand.id b' = k) then f b' else b')) as Hlook.
  { intros l' b' Hl' Hb'. destruct (decide (l' = l)) as [->|Hne].
    - rewrite Hb in Hb'. injection Hb' as <-.
      rewrite list_lookup_insert_eq by done. by rewrite bool_decide_eq_true_2.
    - rewrite list_lookup_insert_ne by done. rewrite Hb'.
      rewrite bool_decide_eq_false_2; [done|]. intros E.
      destruct (rep_brand _ _ _ _ _ _ R l' Hl') as (_ & b'' & Hb'' & Hm).
      rewrite Hb' in Hb''. injection Hb'' as <-. congruence. }
  constructor; simpl; try apply R.
  - intros l' Hl'. destruct (rep_brand _ _ _ _ _ _ R l' Hl') as (Hfr & b' & Hb' & Hm).
    split; [done|]. eexists. split; [by apply Hlook|].
    case_bool_decide; by rewrite ?Hf.
  - intros k' l' Hk'. destruct (rep_map _ _ _ _ _ _ R k' l' Hk') as (Hl' & b' & Hb' & Hid').
    split; [done|]. eexists. split; [by apply Hlook|].
    case_bool_decide; by rewrite ?Hf.
  - unfold alter_brand. apply Forall2_fmap_r.
    apply Forall2_same_length_lookup. split; [eapply Forall2_length, R|].
    intros i s v Hs Hv.
    destruct (Forall2_lookup_lr _ _ _ _ _ _ (rep_view _ _ _ _ _ _ R) Hs Hv) as [Hd Hbs].
    split; [done|]. simpl. apply Forall2_fmap_r.
    apply Forall2_same_length_lookup. split; [by eapply Forall2_length|].
    intros j l' b' Hl' Hb'. apply Hlook.
    + apply list_elem_of_bind. exists s. eauto using list_elem_of_lookup_2.
    + apply (Forall2_lookup_lr _ _ _ _ _ _ Hbs Hl' Hb').
  - destruct (rep_pres _ _ _ _ _ _ R) as (Hh & Ha & Hbr). repeat split; try done.
    simpl. intros l' o Ho. rewrite list_lookup_insert_ne; [by apply Hbr|].
    destruct (rep_brand _ _ _ _ _ _ R l Hl) as (Hfr & _).
    apply lookup_lt_Some in Ho. lia.
Qed.

End row_step.

Section row_attach.

Implicit Types (h : heap) (l : loc) (S : list slot) (V : list hall_view)
  (bm : gmap jsstring loc) (b : Brand.t).

Lemma fmap_alter_same {A B} (f : A → B) (g : A → A) i (xs : list A) :
  (∀ x, f (g x) = f x) → f <$> alter g i xs = f <$> xs.
Proof.
  intros H. revert i. induction xs as [|x xs IH]; intros [|i]; simpl; try done.
  - by rewrite H.
  - f_equal. apply IH.
Qed.

Lemma lookup_alter_cases {A} (f : A → A) i j (xs : list A) y :
  alter f i xs !! j = Some y →
  (j = i ∧ ∃ x, xs !! i = Some x ∧ y = f x) ∨ (j ≠ i ∧ xs !! j = Some y).
Proof.
  destruct (decide (i = j)) as [->|Hne].
  - rewrite list_lookup_alter_eq. destruct (xs !! j) as [x|]; [|done].
    intros [= <-]. left. eauto.
  - rewrite list_lookup_alter_ne by done. intros ?. right. eauto.
Qed.

Lemma bind_alter_push S i s l :
  S !! i = Some s →
  alter (slot_push l) i S ≫= s_brands ≡ₚ l :: (S ≫= s_brands).
Proof.
  revert i. induction S as [|s0 S IH]; intros [|i]; simpl; try done.
  - intros [= ->]. rewrite <- app_assoc. simpl.
    by rewrite <- Permutation_middle.
  - intros Hs. rewrite (IH _ Hs). by rewrite <- Permutation_middle.
Qed.

(** Allocating a brand object, pushing it onto the array of hall [i] and
    registering it under its id attaches the brand to hall [i] of the
    collection. *)
Lemma rep_attach h0 uh S V bm h i s k nb :
  rep h0 uh S V bm h → S !! i = Some s → bm !! k = None → Brand.id nb = k →
  rep h0 uh (alter (slot_push (length (brands h))) i S) (attach_brand i nb V)
      (<[k := length (brands h)]> bm)
      (mkheap (halls h)
              (<[s_arr s := s_brands s ++ [length (brands h)]]> (arrays h))
              (brands h ++ [nb])).
Proof.
  intros R Hs Hk Hid. set (l := length (brands h)).
  destruct (rep_lookup_slot _ _ _ _ _ _ _ _ R Hs) as (Hhs & Has & Hne & Hfr & Huniq).
  pose proof (lookup_lt_Some _ _ _ Has) as Hlt.
  assert (∀ l', l' ∈ S ≫= s_brands → (l' < l)%nat) as Hold.
  { intros l' Hl'. destruct (rep_brand _ _ _ _ _ _ R l' Hl') as (_ & b & Hb & _).
    by apply lookup_lt_Some in Hb. }
  assert (∀ l', l' ∈ alter (slot_push l) i S ≫= s_brands ↔ l' = l ∨ l' ∈ S ≫= s_brands) as Hmem.
  { intros l'. rewrite (bind_alter_push _ _ _ _ Hs). apply elem_of_cons. }
  constructor; simpl.
  - rewrite list_lookup_insert_ne by done.
    rewrite fmap_alter_same by done. apply R.
  - intros s' (j & Hj)%list_elem_of_lookup.
    apply lookup_alter_cases in Hj as [(-> & s0 & Hs0 & ->)|(_ & Hj)].
    + rewrite Hs in Hs0. by injection Hs0 as <-.
    + apply (rep_hall _ _ _ _ _ _ R). by eapply list_elem_of_lookup_2.
  - intros s' (j & Hj)%list_elem_of_lookup.
    apply lookup_alter_cases in Hj as [(-> & s0 & Hs0 & ->)|(Hji & Hj)].
    + rewrite Hs in Hs0. injection Hs0 as <-. simpl.
      by rewrite list_lookup_insert_eq.
    + rewrite list_lookup_insert_ne.
      * apply (rep_arr _ _ _ _ _ _ R). by eapply list_elem_of_lookup_2.
      * intros E. apply Hji. symmetry in E. by eapply Huniq.
  - rewrite fmap_alter_same by done. apply R.
  - rewrite fmap_alter_same by done. apply R.
  - rewrite (bind_alter_push _ _ _ _ Hs). apply NoDup_cons. split; [|apply R].
    intros Hl%Hold. lia.
  - intros l' [->|Hl']%Hmem.
    + split.
      * destruct (preserved_lengths _ _ (rep_pres _ _ _ _ _ _ R)) as (_&_&?). done.
      * exists nb. split; [by apply list_lookup_middle|].
        rewrite Hid. by apply lookup_insert_eq.
    + destruct (rep_brand _ _ _ _ _ _ R l' Hl') as (Hfr' & b & Hb & Hm).
      split; [done|]. exists b. split; [by apply lookup_app_l_Some|].
      rewrite lookup_insert_ne; [done|]. intros E. congruence.
  - intros k' l'. destruct (decide (k = k')) as [<-|Hkk].
    + rewrite lookup_insert_eq. intros [= <-]. split; [apply Hmem; by left|].
      exists nb. split; [by apply list_lookup_middle|done].
    + rewrite lookup_insert_ne by done. intros Hk'.
      destruct (rep_map _ _ _ _ _ _ R k' l' Hk') as (Hl' & b & Hb & Hid').
      split; [apply Hmem; by right|]. exists b. split; [by apply lookup_app_l_Some|done].
  - unfold attach_brand. apply Forall2_alter.
    + eapply Forall2_impl; [apply R|]. intros s' v' [Hd Hbs]. split; [done|].
      eapply Forall2_impl; [done|]. intros l' b' Hb'. simpl.
      by apply lookup_app_l_Some.
    + intros s' v' Hs' Hv' [Hd Hbs]. split; [done|]. simpl.
      apply Forall2_app; [done|]. constructor; [|constructor].
      simpl. by apply list_lookup_middle.
  - destruct (rep_pres _ _ _ _ _ _ R) as (Hh & Ha & Hbr). repeat split; simpl.
    + done.
    + intros l' o Ho. rewrite list_lookup_insert_ne; [by apply Ha|].
      apply lookup_lt_Some in Ho. lia.
    + intros l' o Ho. apply lookup_app_l_Some. by apply Hbr.
Qed.

End row_attach.

Section row_simulation.

Implicit Types (h : heap) (l : loc) (S : list slot) (V : list hall_view)
  (bm : gmap jsstring loc) (b : Brand.t).

Lemma attach_spec h uh i x hls hl o xs :
  arrays h !! uh = Some hls → hls !! i = Some hl → halls h !! hl = Some o →
  arrays h !! Hall.brands o = Some xs →
  attach uh i x h =
    Ret tt (mkheap (halls h) (<[Hall.brands o := xs ++ [x]]> (arrays h)) (brands h)).
Proof.
  intros Hu Hi Hh Ha. unfold attach.
  rewrite (bind_Ret _ _ _ _ _ (read_array_Some _ _ _ Hu)). rewrite Hi.
  rewrite (bind_Ret _ _ _ _ _ (read_hall_Some _ _ _ Hh)).
  unfold push. rewrite (bind_Ret _ _ _ _ _ (read_array_Some _ _ _ Ha)).
  unfold write_array. by rewrite Ha.
Qed.

(** A row with fewer than three fields leaves the store and [brandMap]
    as they are. *)
Lemma process_row_short uh bm row h :
  (length (parse_cols row) < 3)%nat → process_row uh bm row h = Ret bm h.
Proof.
  unfold process_row. destruct (parse_cols row) as [|? [|? [|? ?]]]; simpl; try done. lia.
Qed.

(** So does a row whose hall code is not found. *)
Lemma process_row_unknown h0 uh S V bm h row hallCode rest :
  rep h0 uh S V bm h → parse_cols row = hallCode :: rest →
  find_hall V hallCode = None →
  process_row uh bm row h = Ret bm h.
Proof.
  intros R Hc Hf. unfold process_row. rewrite Hc.
  destruct rest as [|booth [|brandName rest]]; try done.
  rewrite (bind_Ret _ _ _ _ _ (findIndex_rep _ _ _ _ _ _ hallCode R)). by rewrite Hf.
Qed.

(** One row: the callback returns, keeps the invariant, and changes the
    collection by [row_effect]. *)
Lemma process_row_rep h0 uh S V bm h row :
  rep h0 uh S V bm h →
  ∃ S' bm' h', process_row uh bm row h = Ret bm' h' ∧
               rep h0 uh S' (row_effect row V) bm' h'.
Proof.
  intros R. unfold process_row, row_effect.
  destruct (parse_cols row) as [|hallCode [|booth [|brandName rest]]];
    try (by exists S, bm, h).
  rewrite (bind_Ret _ _ _ _ _ (findIndex_rep _ _ _ _ _ _ hallCode R)).
  destruct (find_hall V hallCode) as [i|] eqn:Ef; [|by exists S, bm, h].
  apply find_hall_from_Some in Ef as (_ & v & Hv & Hcode).
  rewrite Nat.sub_0_r in Hv.
  destruct (Forall2_lookup_r _ _ _ _ _ (rep_view _ _ _ _ _ _ R) Hv) as (s & Hs & Hok).
  set (k := brandId_of hallCode booth).
  set (f := category_update (rest !! 0%nat) (rest !! 1%nat) (rest !! 2%nat) (rest !! 3%nat)).
  unfold upsert_brand, has_brand.
  destruct (bm !! k) as [l|] eqn:Ek.
  - rewrite bool_decide_eq_true_2; last by (eapply rep_brand_ids; eauto).
    destruct (rep_map _ _ _ _ _ _ R k l Ek) as (Hl & b & Hb & Hid).
    unfold bind at 1. unfold ret at 1. cbv beta iota.
    rewrite (bind_Ret _ _ _ _ _ (apply_category_spec _ _ _ _ _ _ _ Hb)).
    eexists S, bm, _. split; [done|].
    apply rep_alter; [done..|]. intros b'. apply category_update_id.
  - rewrite bool_decide_eq_false_2; last first.
    { intros Hin. eapply rep_brand_ids in Hin as [? Hin]; [|done]. congruence. }
    destruct (rep_lookup_slot _ _ _ _ _ _ _ _ R Hs) as (Hhs & Has & _).
    set (nb := Brand.mk k booth brandName [] [] []).
    unfold bind at 1. unfold bind at 1. unfold alloc_brand at 1. cbv beta iota.
    fold nb. set (h1 := mkheap (halls h) (arrays h) (brands h ++ [nb])).
    set (h2 := mkheap (halls h)
                 (<[s_arr s := s_brands s ++ [length (brands h)]]> (arrays h))
                 (brands h ++ [nb])).
    assert (attach uh i (length (brands h)) h1 = Ret tt h2) as Hatt.
    { apply (attach_spec h1 uh i _ (s_hall <$> S) (s_hall s)
               (Hall.mk (s_data s) (s_arr s)) (s_brands s)); simpl;
        [apply R|by rewrite list_lookup_fmap, Hs|done|done]. }
    rewrite (bind_Ret _ _ _ _ _ Hatt). unfold ret at 1. cbv beta iota.
    assert (brands h2 !! length (brands h) = Some nb) as Hnb.
    { simpl. by apply list_lookup_middle. }
    rewrite (bind_Ret _ _ _ _ _ (apply_category_spec _ _ _ _ _ _ _ Hnb)).
    subst h2. simpl. fold f.
    eexists _, _, _. split; [done|].
    replace (<[length (brands h) := f nb]> (brands h ++ [nb]))
      with (brands h ++ [f nb]).
    + apply (rep_attach h0 uh S V bm h i s k (f nb)); try done.
      apply category_update_id.
    + rewrite insert_app_r_alt by lia. by rewrite Nat.sub_diag.
Qed.

(** All rows. *)
Lemma forEach_rows_rep h0 uh rows : ∀ S V bm h,
  rep h0 uh S V bm h →
  ∃ S' bm' h', forEach_rows uh bm rows h = Ret bm' h' ∧
               rep h0 uh S' (rows_effect rows V) bm' h'.
Proof.
  induction rows as [|row rows IH]; intros S V bm h R; simpl.
  - by exists S, bm, h.
  - destruct (process_row_rep _ _ _ _ _ _ row R) as (S1 & bm1 & h1 & E & R1).
    rewrite (bind_Ret _ _ _ _ _ E). by apply (IH S1).
Qed.

Lemma forEach_rows_app uh rows1 rows2 bm h :
  forEach_rows uh bm (rows1 ++ rows2) h =
  (let! bm' := forEach_rows uh bm rows1 in forEach_rows uh bm' rows2) h.
Proof.
  revert bm h. induction rows1 as [|r rows1 IH]; intros bm h; simpl; [done|].
  unfold bind in *. destruct (process_row uh bm r h); [apply IH|done].
Qed.

Lemma rows_effect_app rows1 rows2 V :
  rows_effect (rows1 ++ rows2) V = rows_effect rows2 (rows_effect rows1 V).
Proof. apply foldl_app. Qed.

(** The loop state after [rows], for a skeleton whose halls [clone_halls]
    can read. *)
Lemma run_rows_rep h0 sk ds rows :
  skeleton_fields h0 sk = Some ds →
  ∃ uh S bm h, run_rows sk rows h0 = Ret (uh, bm) h ∧
               rep h0 uh S (rows_effect rows (blank ds)) bm h.
Proof.
  intros Hds. unfold run_rows.
  pose proof (clone_halls_spec h0 sk) as Hc. unfold bind at 1.
  destruct (clone_halls sk h0) as [uh h1|e h1]; [|destruct Hc; congruence].
  destruct Hc as (S & R & HS). rewrite (HS _ Hds) in R.
  destruct (forEach_rows_rep _ _ rows _ _ _ _ R) as (S' & bm' & h' & E & R').
  rewrite (bind_Ret _ _ _ _ _ E). by exists uh, S', bm', h'.
Qed.

(** Processing one more row continues from the state after [rows]. *)
Lemma run_rows_snoc sk rows row h0 uh bm h :
  run_rows sk rows h0 = Ret (uh, bm) h →
  run_rows sk (rows ++ [row]) h0 =
    match process_row uh bm row h with
    | Ret bm' h' => Ret (uh, bm') h'
    | Throw e h' => Throw e h'
    end.
Proof.
  unfold run_rows, bind. destruct (clone_halls sk h0) as [uh' h1|]; [|done].
  rewrite forEach_rows_app. unfold bind.
  destruct (forEach_rows uh' ∅ rows h1) as [bm1 h2|]; [|done].
  intros [= -> -> ->]. simpl. unfold bind.
  destruct (process_row uh bm row h); done.
Qed.

End row_simulation.

(** ** The collection as a value: what a row does to it *)

Section collection_facts.

Implicit Types (V : list hall_view) (b : Brand.t) (k : jsstring)
  (f : Brand.t → Brand.t).

Lemma fields_alter_brand k f V : fst <$> alter_brand k f V = fst <$> V.
Proof. unfold alter_brand. rewrite <- list_fmap_compose. by apply list_fmap_ext. Qed.

Lemma fields_attach_brand i b V : fst <$> attach_brand i b V = fst <$> V.
Proof. unfold attach_brand. by apply fmap_alter_same. Qed.

Lemma fields_upsert_brand i k booth brandName f V :
  fst <$> upsert_brand i k booth brandName f V = fst <$> V.
Proof.
  unfold upsert_brand. destruct (has_brand k V);
    [apply fields_alter_brand|apply fields_attach_brand].
Qed.

Lemma fields_row_effect row V : fst <$> row_effect row V = fst <$> V.
Proof.
  unfold row_effect. repeat case_match; try done. apply fields_upsert_brand.
Qed.

Lemma rows_effect_cons r rows V :
  rows_effect (r :: rows) V = rows_effect rows (row_effect r V).
Proof. done. Qed.

Lemma fields_rows_effect rows V : fst <$> rows_effect rows V = fst <$> V.
Proof.
  revert V. induction rows as [|r rows IH]; intros V; [done|].
  by rewrite rows_effect_cons, IH, fields_row_effect.
Qed.

Lemma fields_blank ds : fst <$> blank ds = ds.
Proof.
  unfold blank. rewrite <- list_fmap_compose.
  induction ds as [|d ds IH]; [done|]. simpl. by f_equal.
Qed.

Lemma find_hall_from_fields i V V' hallCode :
  fst <$> V = fst <$> V' → find_hall_from i V hallCode = find_hall_from i V' hallCode.
Proof.
  revert i V'. induction V as [|v V IH]; intros i [|v' V']; simpl; try done.
  intros [= E1 E2]. rewrite E1. case_bool_decide; [done|]. by apply IH.
Qed.

Lemma find_hall_lt V hallCode i : find_hall V hallCode = Some i → (i < length V)%nat.
Proof.
  intros (_ & v & Hv & _)%find_hall_from_Some. rewrite Nat.sub_0_r in Hv.
  by apply lookup_lt_Some in Hv.
Qed.

Lemma find_hall_is_Some V hallCode :
  is_Some (find_hall V hallCode) ↔ hallCode ∈ Hall.code <$> (fst <$> V).
Proof.
  rewrite <- list_fmap_compose. unfold find_hall.
  destruct (find_hall_from 0 V hallCode) eqn:E.
  - split; [|by eauto]. intros _.
    destruct (decide (hallCode ∈ (Hall.code ∘ fst) <$> V)) as [|Hn]; [done|].
    apply (find_hall_from_None 0) in Hn. congruence.
  - split; [by intros [? ?]|]. intros Hin.
    by apply (find_hall_from_None 0) in E.
Qed.

(** The brands of the collection, in order, after an update in place. *)
Lemma all_brands_alter_brand k f V :
  all_brands (alter_brand k f V) =
  (fun b => if bool_decide (Brand.id b = k) then f b else b) <$> all_brands V.
Proof.
  unfold all_brands, alter_brand. induction V as [|v V IH]; [done|].
  rewrite !fmap_cons, !bind_cons, fmap_app. by f_equal.
Qed.

Lemma all_brands_cons (v : hall_view) V :
  all_brands (v :: V) = v.2 ++ all_brands V.
Proof. done. Qed.

Lemma attach_brand_0 b (v : hall_view) V :
  attach_brand 0 b (v :: V) = (v.1, v.2 ++ [b]) :: V.
Proof. done. Qed.

Lemma attach_brand_S i b (v : hall_view) V :
  attach_brand (S i) b (v :: V) = v :: attach_brand i b V.
Proof. done. Qed.

Lemma all_brands_attach_brand i b V :
  (i < length V)%nat →
  ∃ l1 l2, all_brands V = l1 ++ l2 ∧ all_brands (attach_brand i b V) = l1 ++ b :: l2.
Proof.
  revert i. induction V as [|v V IH]; intros i Hi; [simpl in Hi; lia|].
  destruct i as [|i].
  - exists v.2, (all_brands V). split; [done|].
    rewrite attach_brand_0, all_brands_cons. simpl. by rewrite <- app_assoc.
  - destruct (IH i) as (l1 & l2 & E1 & E2); [simpl in Hi; lia|].
    exists (v.2 ++ l1), l2.
    rewrite attach_brand_S, !all_brands_cons, E1, E2. by rewrite !app_assoc.
Qed.

Lemma brand_ids_alter_brand k f V :
  (∀ b, Brand.id (f b) = Brand.id b) →
  brand_ids (alter_brand k f V) = brand_ids V.
Proof.
  intros Hf. unfold brand_ids. rewrite all_brands_alter_brand, <- list_fmap_compose.
  apply list_fmap_ext. intros _ b _. simpl. case_bool_decide; by rewrite ?Hf.
Qed.

Lemma brand_ids_attach_brand i b V :
  (i < length V)%nat →
  brand_ids (attach_brand i b V) ≡ₚ Brand.id b :: brand_ids V.
Proof.
  intros Hi. unfold brand_ids.
  destruct (all_brands_attach_brand i b V Hi) as (l1 & l2 & -> & ->).
  rewrite !fmap_app. simpl. by rewrite <- Permutation_middle.
Qed.

Lemma has_brand_true k V : has_brand k V = true ↔ k ∈ brand_ids V.
Proof. unfold has_brand. apply bool_decide_eq_true. Qed.

Lemma has_brand_false k V : has_brand k V = false ↔ k ∉ brand_ids V.
Proof. unfold has_brand. apply bool_decide_eq_false. Qed.

(** No row makes two brands share an id. *)
Lemma NoDup_row_effect row V :
  NoDup (brand_ids V) → NoDup (brand_ids (row_effect row V)).
Proof.
  intros Hnd. unfold row_effect.
  destruct (parse_cols row) as [|hallCode [|booth [|brandName rest]]]; try done.
  destruct (find_hall V hallCode) as [i|] eqn:Ef; [|done].
  apply find_hall_lt in Ef. unfold upsert_brand.
  destruct (has_brand _ V) eqn:Eh.
  - rewrite brand_ids_alter_brand; [done|]. intros b. apply category_update_id.
  - rewrite brand_ids_attach_brand by done. rewrite category_update_id. simpl.
    apply NoDup_cons. split; [|done]. by apply has_brand_false.
Qed.

Lemma NoDup_rows_effect rows V :
  NoDup (brand_ids V) → NoDup (brand_ids (rows_effect rows V)).
Proof.
  revert V. induction rows as [|r rows IH]; intros V Hnd; [done|].
  rewrite rows_effect_cons. apply IH. by apply NoDup_row_effect.
Qed.

Lemma brand_ids_blank ds : brand_ids (blank ds) = [].
Proof.
  unfold brand_ids, all_brands, blank. induction ds as [|d ds IH]; [done|]. done.
Qed.

(** The ids in the collection after a row: the ids before, and the row's
    key. *)
Lemma brand_ids_row_effect row V k :
  k ∈ brand_ids (row_effect row V) ↔
  k ∈ brand_ids V ∨ row_key (fst <$> V) row = Some k.
Proof.
  unfold row_effect, row_key.
  destruct (parse_cols row) as [|hallCode [|booth [|brandName rest]]];
    try (split; [by left|by intros [?|?]]).
  pose proof (find_hall_is_Some V hallCode) as Hs.
  destruct (find_hall V hallCode) as [i|] eqn:Ef.
  - rewrite bool_decide_eq_true_2 by (apply Hs; eauto).
    apply find_hall_lt in Ef. unfold upsert_brand.
    destruct (has_brand _ V) eqn:Eh.
    + rewrite brand_ids_alter_brand by (intros; apply category_update_id).
      split; [by left|]. intros [?|[= <-]]; [done|]. by apply has_brand_true.
    + rewrite brand_ids_attach_brand by done. rewrite category_update_id. simpl.
      rewrite elem_of_cons. split; intros [E|?]; auto; [right|left]; congruence.
  - rewrite bool_decide_eq_false_2.
    + split; [by left|by intros [?|?]].
    + intros Hin. apply Hs in Hin as [? ?]. congruence.
Qed.

Lemma brand_ids_rows_effect rows : ∀ V k,
  k ∈ brand_ids (rows_effect rows V) ↔
  k ∈ brand_ids V ∨ ∃ r, r ∈ rows ∧ row_key (fst <$> V) r = Some k.
Proof.
  induction rows as [|r rows IH]; intros V k.
  - split; [by left|]. intros [?|(r & Hr & _)]; [done|]. by apply elem_of_nil in Hr.
  - rewrite rows_effect_cons, IH, brand_ids_row_effect, fields_row_effect.
    split.
    + intros [[?|?]|(r' & Hr' & ?)]; [by left|right; exists r|right; exists r'];
        (split; [|done]); [left|by right].
    + intros [?|(r' & [->|Hr']%elem_of_cons & ?)]; [by left; left|by left; right|].
      right. by exists r'.
Qed.

End collection_facts.

Section brand_lookup.

Implicit Types (V : list hall_view) (b : Brand.t) (k : jsstring)
  (f : Brand.t → Brand.t).

Lemma filter_id_nil k (bs : list Brand.t) :
  k ∉ Brand.id <$> bs → filter (fun b => Brand.id b = k) bs = [].
Proof.
  induction bs as [|b bs IH]; [done|]. rewrite fmap_cons, not_elem_of_cons.
  intros [Hne Hn]. rewrite filter_cons_False by congruence. by apply IH.
Qed.

Lemma lookup_brand_None k V : k ∉ brand_ids V → lookup_brand k V = None.
Proof. intros H. unfold lookup_brand. by rewrite filter_id_nil. Qed.

Lemma lookup_brand_Some k V b :
  lookup_brand k V = Some b → b ∈ all_brands V ∧ Brand.id b = k.
Proof.
  unfold lookup_brand. intros H.
  assert (b ∈ filter (fun b => Brand.id b = k) (all_brands V)) as Hin.
  { destruct (filter _ _) as [|b' l]; [done|]. injection H as ->. by left. }
  apply list_elem_of_filter in Hin. tauto.
Qed.

Lemma lookup_brand_is_Some k V : k ∈ brand_ids V → is_Some (lookup_brand k V).
Proof.
  intros (b & -> & Hb)%list_elem_of_fmap. unfold lookup_brand.
  destruct (filter _ _) as [|b' l] eqn:E; [|by eauto].
  exfalso. by apply (filter_nil_not_elem_of _ _ b E).
Qed.

Lemma lookup_brand_alter k f V :
  (∀ b, Brand.id (f b) = Brand.id b) →
  lookup_brand k (alter_brand k f V) = f <$> lookup_brand k V.
Proof.
  intros Hf. unfold lookup_brand. rewrite all_brands_alter_brand.
  induction (all_brands V) as [|b bs IH]; [done|]. rewrite fmap_cons.
  case_bool_decide as E.
  - rewrite !filter_cons_True; [done|done|by rewrite Hf].
  - by rewrite !filter_cons_False.
Qed.

Lemma lookup_brand_attach i b V k :
  (i < length V)%nat → k ∉ brand_ids V → Brand.id b = k →
  lookup_brand k (attach_brand i b V) = Some b.
Proof.
  intros Hi Hk Hb. unfold lookup_brand, brand_ids in *.
  destruct (all_brands_attach_brand i b V Hi) as (l1 & l2 & E1 & ->).
  rewrite E1, fmap_app, not_elem_of_app in Hk. destruct Hk as [Hk1 _].
  rewrite filter_app, filter_id_nil by done.
  by rewrite filter_cons_True.
Qed.

(** The brand [k] after an upsert: [f] applied to the brand that was
    there, or to the new one. *)
Lemma lookup_brand_upsert i k booth brandName f V :
  (i < length V)%nat → (∀ b, Brand.id (f b) = Brand.id b) →
  lookup_brand k (upsert_brand i k booth brandName f V) =
    Some (f (default (Brand.mk k booth brandName [] [] []) (lookup_brand k V))).
Proof.
  intros Hi Hf. unfold upsert_brand. destruct (has_brand k V) eqn:Eh.
  - apply has_brand_true in Eh. rewrite lookup_brand_alter by done.
    by destruct (lookup_brand_is_Some _ _ Eh) as [b ->].
  - apply has_brand_false in Eh. rewrite (lookup_brand_None _ _ Eh). simpl.
    apply lookup_brand_attach; [done..|]. by rewrite Hf.
Qed.

Lemma bind_all_brands_alter {A} (g : Brand.t → list A) k f V :
  (∀ b, g (f b) = g b) →
  all_brands (alter_brand k f V) ≫= g = all_brands V ≫= g.
Proof.
  intros Hg. rewrite all_brands_alter_brand.
  induction (all_brands V) as [|b bs IH]; [done|].
  rewrite fmap_cons, !bind_cons, IH. f_equal. case_bool_decide; by rewrite ?Hg.
Qed.

Lemma alter_out_of_range {A} (g : A → A) i (xs : list A) :
  (length xs ≤ i)%nat → alter g i xs = xs.
Proof.
  revert i. induction xs as [|x xs IH]; intros [|i] Hi; simpl in *; try done; [lia|].
  f_equal. apply IH. lia.
Qed.

Lemma bind_all_brands_attach {A} (g : Brand.t → list A) i b V :
  g b = [] → all_brands (attach_brand i b V) ≫= g = all_brands V ≫= g.
Proof.
  intros Hg. destruct (decide (i < length V)%nat) as [Hi|Hi].
  - destruct (all_brands_attach_brand i b V Hi) as (l1 & l2 & -> & ->).
    by rewrite !bind_app, bind_cons, Hg.
  - unfold attach_brand. rewrite alter_out_of_range; [done|lia].
Qed.

(** An upsert whose update keeps the entries of a list [g] creates no
    entry in it. *)
Lemma bind_all_brands_upsert {A} (g : Brand.t → list A) i k booth brandName f V :
  (∀ b, g (f b) = g b) → g (Brand.mk k booth brandName [] [] []) = [] →
  all_brands (upsert_brand i k booth brandName f V) ≫= g = all_brands V ≫= g.
Proof.
  intros Hg Hnew. unfold upsert_brand. destruct (has_brand k V).
  - by apply bind_all_brands_alter.
  - apply bind_all_brands_attach. by rewrite Hg.
Qed.

End brand_lookup.

(** ** Sorting *)

Section sort_facts.

Context {A : Type} (compareFn : A → A → Z).

Hypothesis compare_total : ∀ x y, (0 < compareFn x y)%Z → (compareFn y x ≤ 0)%Z.
Hypothesis compare_trans : ∀ x y z,
  (compareFn x y ≤ 0)%Z → (compareFn y z ≤ 0)%Z → (compareFn x z ≤ 0)%Z.

Lemma insert_sorted_Permutation x ys : insert_sorted compareFn x ys ≡ₚ x :: ys.
Proof.
  induction ys as [|y ys IH]; simpl; [done|].
  case_match; [|done]. rewrite IH. apply Permutation_swap.
Qed.

Lemma sort_with_Permutation xs : sort_with compareFn xs ≡ₚ xs.
Proof.
  induction xs as [|x xs IH]; simpl; [done|].
  by rewrite insert_sorted_Permutation, IH.
Qed.

Lemma insert_sorted_StronglySorted x ys :
  StronglySorted (le_by compareFn) ys → StronglySorted (le_by compareFn) (insert_sorted compareFn x ys).
Proof.
  induction 1 as [|y ys Hs IH Hall]; simpl.
  - by repeat constructor.
  - destruct (0 <? compareFn x y)%Z eqn:E.
    + apply Z.ltb_lt in E. constructor; [done|].
      rewrite insert_sorted_Permutation. constructor; [|done].
      by apply compare_total.
    + apply Z.ltb_ge in E. constructor; [by constructor|].
      constructor; [done|]. eapply Forall_impl; [done|].
      intros z Hz. by eapply compare_trans.
Qed.

Lemma sort_with_StronglySorted xs : StronglySorted (le_by compareFn) (sort_with compareFn xs).
Proof.
  induction xs as [|x xs IH]; simpl; [constructor|].
  by apply insert_sorted_StronglySorted.
Qed.

End sort_facts.

(** ** The whole function *)

Section whole_function.

Implicit Types (h : heap) (l : loc) (V : list hall_view).

Lemma parse_body_resolved fetch url sk h0 r t :
  fetch url = Resolved r → text r = Some t →
  parse_body fetch url sk h0 =
    match run_rows sk (rows_of t) h0 with
    | Ret (uh, _) h => Ret uh h
    | Throw e h => Throw e h
    end.
Proof.
  intros Hf Ht. unfold parse_body, await_fetch, await_text. rewrite Hf.
  unfold bind at 1. unfold ret at 1. rewrite Ht.
  unfold bind at 1. unfold ret at 1.
  unfold run_rows, bind. destruct (clone_halls sk h0) as [uh h1|]; [|done].
  by destruct (forEach_rows uh ∅ (rows_of t) h1).
Qed.

Lemma preserved_view_halls h0 h sk V :
  preserved h0 h → view_halls h0 sk = Some V → view_halls h sk = Some V.
Proof.
  intros (Hh & Ha & Hb). unfold view_halls.
  destruct (arrays h0 !! sk) as [ls|] eqn:Hls; [|done]. rewrite (Ha _ _ Hls). simpl.
  rewrite !mapM_Some. intros HF. eapply Forall2_impl; [done|].
  intros l [d bs]. unfold view_hall.
  destruct (halls h0 !! l) as [o|] eqn:Ho; [|done]. rewrite (Hh _ _ Ho). simpl.
  unfold view_brands.
  destruct (arrays h0 !! Hall.brands o) as [xs|] eqn:Hxs; [|done].
  rewrite (Ha _ _ Hxs). simpl.
  destruct (list.mapM (λ l0, brands h0 !! l0) xs) as [bs0|] eqn:Hm; [|done].
  apply mapM_Some in Hm. simpl. intros [= <- <-].
  assert (list.mapM (λ l0, brands h !! l0) xs = Some bs0) as ->; [|done].
  apply mapM_Some. eapply Forall2_impl; [done|]. intros ? ?. apply Hb.
Qed.

Lemma view_halls_skeleton_fields h sk V :
  view_halls h sk = Some V → skeleton_fields h sk = Some (fst <$> V).
Proof.
  unfold view_halls, skeleton_fields.
  destruct (arrays h !! sk) as [ls|]; [|done]. simpl.
  rewrite !mapM_Some. intros HF. apply Forall2_fmap_r.
  eapply Forall2_impl; [done|]. intros l [d bs]. unfold view_hall.
  destruct (halls h !! l) as [o|]; [|done]. simpl.
  destruct (view_brands h (Hall.brands o)); [|done]. simpl. by intros [= <- <-].
Qed.

(** A row that leaves the loop state as it is can be left out. *)
Lemma run_rows_skip sk rows row rows' h0 uh bm h :
  run_rows sk rows h0 = Ret (uh, bm) h →
  process_row uh bm row h = Ret bm h →
  run_rows sk (rows ++ row :: rows') h0 = run_rows sk (rows ++ rows') h0.
Proof.
  unfold run_rows, bind. destruct (clone_halls sk h0) as [uh' h1|]; [|done].
  rewrite !forEach_rows_app. unfold bind.
  destruct (forEach_rows uh' ∅ rows h1) as [bm1 h2|]; [|done].
  intros [= -> -> ->] E. simpl. unfold bind. by rewrite E.
Qed.

(** On every path the function returns, and no object that existed
    before the call has changed. *)
Lemma parseBrandsCSV_returns fetch url sk h0 :
  ∃ r h, parseBrandsCSV fetch url sk h0 = Ret r h ∧ preserved h0 h ∧
         match parse_body fetch url sk h0 with
         | Ret uh h' => r = uh ∧ h = h'
         | Throw _ h' => r = sk ∧ h = h'
         end.
Proof.
  unfold parseBrandsCSV, try_catch.
  assert (match parse_body fetch url sk h0 with
          | Ret _ h' | Throw _ h' => preserved h0 h' end) as Hp.
  { unfold parse_body, await_fetch.
    destruct (fetch url) as [|r]; [apply preserved_refl|].
    unfold bind at 1. unfold ret at 1. unfold await_text.
    destruct (text r) as [t|]; [|apply preserved_refl].
    unfold bind at 1. unfold ret at 1.
    pose proof (clone_halls_spec h0 sk) as Hc. unfold bind at 1.
    destruct (clone_halls sk h0) as [uh h1|e h1]; [|by destruct Hc].
    destruct Hc as (S & R & _).
    destruct (forEach_rows_rep _ _ (rows_of t) _ _ _ _ R) as (S' & bm' & h' & E & R').
    rewrite (bind_Ret _ _ _ _ _ E). apply R'. }
  destruct (parse_body fetch url sk h0) as [uh h'|e h'].
  - by exists uh, h'.
  - by exists sk, h'.
Qed.

(** A resolved fetch with a readable body: the function returns the
    working copy, which satisfies the loop invariant for the rows of the
    body. *)
Lemma parse_resolved_rep h0 sk ds fetch csvUrl r t :
  skeleton_fields h0 sk = Some ds →
  fetch csvUrl = Resolved r →
  text r = Some t →
  ∃ uh S bm h,
    parseBrandsCSV fetch csvUrl sk h0 = Ret uh h ∧
    rep h0 uh S (rows_effect (rows_of t) (blank ds)) bm h.
Proof.
  intros Hds Hf Ht.
  destruct (run_rows_rep h0 sk _ (rows_of t) Hds) as (uh & S & bm & h & E & R).
  exists uh, S, bm, h. split; [|done].
  unfold parseBrandsCSV, try_catch.
  by rewrite (parse_body_resolved _ _ _ _ _ _ Hf Ht), E.
Qed.

End whole_function.

(** ** One row after earlier rows *)

Section one_row.

Implicit Types (h : heap) (l : loc) (V : list hall_view).

(** The state of the loop after [rows], the callback on one more row, and
    the collections the store denotes before and after it. *)
Lemma row_step h0 sk ds rows row :
  skeleton_fields h0 sk = Some ds →
  ∃ uh bm h V bm' h' V',
    run_rows sk rows h0 = Ret (uh, bm) h ∧ view_halls h uh = Some V ∧
    process_row uh bm row h = Ret bm' h' ∧ view_halls h' uh = Some V' ∧
    run_rows sk (rows ++ [row]) h0 = Ret (uh, bm') h' ∧
    V = rows_effect rows (blank ds) ∧ V' = row_effect row V ∧
    fst <$> V = ds ∧ NoDup (brand_ids V) ∧ NoDup (brand_ids V').
Proof.
  intros Hds.
  destruct (run_rows_rep h0 sk ds rows Hds) as (uh & S & bm & h & E & R).
  destruct (process_row_rep _ _ _ _ _ _ row R) as (S' & bm' & h' & E' & R').
  exists uh, bm, h, (rows_effect rows (blank ds)), bm', h',
    (row_effect row (rows_effect rows (blank ds))).
  assert (NoDup (brand_ids (rows_effect rows (blank ds)))) as Hnd.
  { apply NoDup_rows_effect. rewrite brand_ids_blank. apply NoDup_nil_2. }
  split_and!; try done.
  - by eapply rep_view_halls.
  - by eapply rep_view_halls.
  - rewrite (run_rows_snoc _ _ _ _ _ _ _ E). by rewrite E'.
  - by rewrite fields_rows_effect, fields_blank.
  - by apply NoDup_row_effect.
Qed.

Lemma row_effect_resolved row V hallCode booth brandName rest i :
  parse_cols row = hallCode :: booth :: brandName :: rest →
  find_hall V hallCode = Some i →
  row_effect row V =
    upsert_brand i (brandId_of hallCode booth) booth brandName
      (category_update (rest !! 0%nat) (rest !! 1%nat) (rest !! 2%nat) (rest !! 3%nat)) V.
Proof. intros Hc Hf. unfold row_effect. by rewrite Hc, Hf. Qed.

Lemma find_hall_rows_effect rows ds hallCode :
  find_hall (rows_effect rows (blank ds)) hallCode = find_hall (blank ds) hallCode.
Proof. apply find_hall_from_fields. by rewrite fields_rows_effect. Qed.

Lemma find_hall_blank_None ds hallCode :
  hallCode ∉ Hall.code <$> ds → find_hall (blank ds) hallCode = None.
Proof.
  intros Hn. destruct (find_hall (blank ds) hallCode) as [i|] eqn:E; [|done].
  exfalso. apply Hn. rewrite <- (fields_blank ds). apply find_hall_is_Some. eauto.
Qed.

Lemma category_update_Info m t n :
  category_update (Some (str "Info")) m t n =
    if truthy n then set_description (default [] n) else id.
Proof. done. Qed.

Lemma category_update_Key m t n :
  category_update (Some (str "Key")) m t n =
    if truthy m
    then push_model (CarModel.mk (default [] m) (or_empty t) true n) else id.
Proof. done. Qed.

Lemma category_update_Normal m t n :
  category_update (Some (str "Normal")) m t n =
    if truthy m
    then push_fullModel (CarModel.mk (default [] m) (or_empty t) false n) else id.
Proof. done. Qed.

End one_row.

(** ** The claims about whole runs *)

(** C9. A successful parse returns a new array with as many halls as the
    skeleton, in the same order and with the same fields; the brands of
    the result are the rows folded into halls that start without brands,
    whatever brands the skeleton held; no object that existed before the
    call has changed, and the skeleton denotes the collection it denoted
    before. *)
Theorem parse_success_rebuilds_brands h0 sk Vsk fetch csvUrl r t :
  view_halls h0 sk = Some Vsk →
  fetch csvUrl = Resolved r →
  text r = Some t →
  ∃ uh h V,
    parseBrandsCSV fetch csvUrl sk h0 = Ret uh h ∧
    view_halls h uh = Some V ∧
    length V = length Vsk ∧
    fst <$> V = fst <$> Vsk ∧
    V = rows_effect (rows_of t) (blank (fst <$> Vsk)) ∧
    arrays h0 !! uh = None ∧
    preserved h0 h ∧
    view_halls h sk = Some Vsk.
Proof.
  intros Hsk Hf Ht.
  pose proof (view_halls_skeleton_fields _ _ _ Hsk) as Hds.
  destruct (parse_resolved_rep _ _ _ _ _ _ _ Hds Hf Ht) as (uh & S & bm & h & E & R).
  exists uh, h, (rows_effect (rows_of t) (blank (fst <$> Vsk))).
  assert (fst <$> rows_effect (rows_of t) (blank (fst <$> Vsk)) = fst <$> Vsk) as Hfields.
  { by rewrite fields_rows_effect, fields_blank. }
  split_and!.
  - done.
  - by eapply rep_view_halls.
  - apply (f_equal length) in Hfields. by rewrite !length_fmap in Hfields.
  - done.
  - done.
  - apply lookup_ge_None. apply (rep_arr_fresh _ _ _ _ _ _ R). by left.
  - apply R.
  - eapply preserved_view_halls; [apply R|done].
Qed.

Lemma parse_success_rebuilds_brands_witness :
  view_halls store1_with_brand 0%nat = Some [(hall_17_2, [old_brand])] ∧
  serve true 200 doc1 url = Resolved (mkResponse true 200 (Some doc1)) ∧
  text (mkResponse true 200 (Some doc1)) = Some doc1 ∧
  ∃ uh h V,
    parseBrandsCSV (serve true 200 doc1) url 0%nat store1_with_brand = Ret uh h ∧
    view_halls h uh = Some V ∧
    length V = length [(hall_17_2, [old_brand])] ∧
    fst <$> V = [hall_17_2] ∧
    V = rows_effect (rows_of doc1) (blank [hall_17_2]) ∧
    arrays store1_with_brand !! uh = None ∧
    preserved store1_with_brand h ∧
    view_halls h 0%nat = Some [(hall_17_2, [old_brand])].
Proof.
  split_and!; [reflexivity..|].
  apply (parse_success_rebuilds_brands store1_with_brand 0%nat
           [(hall_17_2, [old_brand])] (serve true 200 doc1) url
           (mkResponse true 200 (Some doc1)) doc1); reflexivity.
Defined.

(** C3, as the code has it. The function always returns; no object that
    existed before the call has changed; when [fetch] rejects or the body
    cannot be read it returns the skeleton reference in an untouched
    store, and it returns the skeleton reference whenever the [try] block
    throws. The status of the response plays no part: a response that is
    not OK is parsed like any other. *)
Theorem parse_always_returns fetch csvUrl sk h0 :
  ∃ r h,
    parseBrandsCSV fetch csvUrl sk h0 = Ret r h ∧
    preserved h0 h ∧
    match parse_body fetch csvUrl sk h0 with
    | Ret uh h' => r = uh ∧ h = h'
    | Throw _ h' => r = sk ∧ h = h'
    end ∧
    match fetch csvUrl with
    | Rejected => r = sk ∧ h = h0
    | Resolved resp =>
        match text resp with
        | None => r = sk ∧ h = h0
        | Some t =>
            parseBrandsCSV fetch csvUrl sk h0 =
            parseBrandsCSV (serve true 200 t) csvUrl sk h0
        end
    end.
Proof.
  destruct (parseBrandsCSV_returns fetch csvUrl sk h0) as (r & h & E & Hp & Hb).
  exists r, h. split_and!; try done.
  unfold parseBrandsCSV, try_catch, parse_body, await_fetch in *.
  destruct (fetch csvUrl) as [|resp]; simpl in *.
  - by injection E as <- <-.
  - unfold bind at 1 in E. unfold ret at 1 in E. unfold await_text in *.
    unfold bind at 1. unfold ret at 1. unfold serve. simpl.
    destruct (text resp) as [t|]; simpl in *; [done|].
    by injection E as <- <-.
Qed.

(** C3, the claim as stated fails: a response that is not OK (status 404)
    whose body holds a row is parsed. The function returns a new array,
    not the skeleton, and the returned collection has a brand. *)
Lemma non_ok_response_is_parsed :
  let body := lines [header; str "17.2,A01,BYD"] in
  ∃ uh h,
    ok (mkResponse false 404 (Some body)) = false ∧
    parseBrandsCSV (serve false 404 body) url 0%nat store1 = Ret uh h ∧
    uh = 3%nat ∧
    view_halls h uh =
      Some [(hall_17_2, [Brand.mk (str "17.2-A01") (str "A01") (str "BYD") [] [] []])] ∧
    view_halls h 0%nat = Some [(hall_17_2, [])].
Proof. eexists _, _. split_and!; reflexivity. Qed.

(** C6. A row whose hall code is the code of no skeleton hall changes
    neither the store nor [brandMap], and the run goes on as if the row
    were not there. *)
Theorem unknown_hall_row_is_ignored h0 sk ds rows row hallCode rest rows' :
  skeleton_fields h0 sk = Some ds →
  parse_cols row = hallCode :: rest →
  hallCode ∉ Hall.code <$> ds →
  ∃ uh bm h V,
    run_rows sk rows h0 = Ret (uh, bm) h ∧ view_halls h uh = Some V ∧
    process_row uh bm row h = Ret bm h ∧
    run_rows sk (rows ++ [row]) h0 = Ret (uh, bm) h ∧
    run_rows sk (rows ++ row :: rows') h0 = run_rows sk (rows ++ rows') h0.
Proof.
  intros Hds Hc Hn.
  destruct (run_rows_rep h0 sk ds rows Hds) as (uh & S & bm & h & E & R).
  assert (process_row uh bm row h = Ret bm h) as Hrow.
  { eapply process_row_unknown; [done..|].
    rewrite find_hall_rows_effect. by apply find_hall_blank_None. }
  exists uh, bm, h, (rows_effect rows (blank ds)). split_and!; try done.
  - by eapply rep_view_halls.
  - rewrite (run_rows_snoc _ _ _ _ _ _ _ E). by rewrite Hrow.
  - by eapply run_rows_skip.
Qed.

Lemma unknown_hall_row_is_ignored_witness :
  skeleton_fields store1 0%nat = Some [hall_17_2] ∧
  parse_cols (str "9.9,B07,Geely,Key,Star")
    = str "9.9" :: [str "B07"; str "Geely"; str "Key"; str "Star"] ∧
  (str "9.9" ∉ Hall.code <$> [hall_17_2]) ∧
  ∃ uh bm h V,
    run_rows 0%nat [str "17.2,A01,BYD"] store1 = Ret (uh, bm) h ∧
    view_halls h uh = Some V ∧
    process_row uh bm (str "9.9,B07,Geely,Key,Star") h = Ret bm h ∧
    run_rows 0%nat ([str "17.2,A01,BYD"] ++ [str "9.9,B07,Geely,Key,Star"]) store1
      = Ret (uh, bm) h ∧
    run_rows 0%nat ([str "17.2,A01,BYD"] ++ str "9.9,B07,Geely,Key,Star" :: [str "17.2,A02,Nio"]) store1
      = run_rows 0%nat ([str "17.2,A01,BYD"] ++ [str "17.2,A02,Nio"]) store1.
Proof.
  split_and!; [reflexivity|reflexivity|not_in_list|].
  apply (unknown_hall_row_is_ignored store1 0%nat [hall_17_2] _ _ (str "9.9")
           [str "B07"; str "Geely"; str "Key"; str "Star"]);
    [reflexivity|reflexivity|not_in_list].
Defined.

(** C8, as the code has it. A row that splits into fewer than three
    fields, empty ones counted, is dropped before any hall is looked up:
    the callback returns in any store, even one in which a lookup would
    throw; it changes neither the store nor [brandMap], and the run goes
    on as if the row were not there. *)
Theorem short_row_is_ignored h0 sk ds rows row rows' :
  skeleton_fields h0 sk = Some ds →
  (length (parse_cols row) < 3)%nat →
  (∀ updatedHalls brandMap store,
     process_row updatedHalls brandMap row store = Ret brandMap store) ∧
  ∃ uh bm h V,
    run_rows sk rows h0 = Ret (uh, bm) h ∧ view_halls h uh = Some V ∧
    process_row uh bm row h = Ret bm h ∧
    run_rows sk (rows ++ [row]) h0 = Ret (uh, bm) h ∧
    run_rows sk (rows ++ row :: rows') h0 = run_rows sk (rows ++ rows') h0.
Proof.
  intros Hds Hlen. split; [intros; by apply process_row_short|].
  destruct (run_rows_rep h0 sk ds rows Hds) as (uh & S & bm & h & E & R).
  pose proof (process_row_short uh bm row h Hlen) as Hrow.
  exists uh, bm, h, (rows_effect rows (blank ds)). split_and!; try done.
  - by eapply rep_view_halls.
  - rewrite (run_rows_snoc _ _ _ _ _ _ _ E). by rewrite Hrow.
  - by eapply run_rows_skip.
Qed.

Lemma short_row_is_ignored_witness :
  skeleton_fields store1 0%nat = Some [hall_17_2] ∧
  (length (parse_cols (str "17.2,A02")) < 3)%nat ∧
  (∀ updatedHalls brandMap store,
     process_row updatedHalls brandMap (str "17.2,A02") store = Ret brandMap store) ∧
  ∃ uh bm h V,
    run_rows 0%nat [str "17.2,A01,BYD"] store1 = Ret (uh, bm) h ∧
    view_halls h uh = Some V ∧
    process_row uh bm (str "17.2,A02") h = Ret bm h ∧
    run_rows 0%nat ([str "17.2,A01,BYD"] ++ [str "17.2,A02"]) store1 = Ret (uh, bm) h ∧
    run_rows 0%nat ([str "17.2,A01,BYD"] ++ str "17.2,A02" :: []) store1
      = run_rows 0%nat ([str "17.2,A01,BYD"] ++ []) store1.
Proof.
  split_and!; [reflexivity|vm_compute; lia|..];
    apply (short_row_is_ignored store1 0%nat [hall_17_2]
             [str "17.2,A01,BYD"] (str "17.2,A02") []);
    first [reflexivity|vm_compute; lia].
Defined.

(** C8, the claim as stated fails: the row 17.2,, has one populated field
    and three fields; it is not ignored, and creates a brand with an
    empty booth and an empty name. *)
Lemma row_with_empty_fields_creates_brand :
  let row := str "17.2,," in
  ∃ uh bm h uh' bm' h',
    populated (parse_cols row) = 1%nat ∧
    length (parse_cols row) = 3%nat ∧
    run_rows 0%nat [] store1 = Ret (uh, bm) h ∧
    view_halls h uh = Some [(hall_17_2, [])] ∧
    run_rows 0%nat [row] store1 = Ret (uh', bm') h' ∧
    view_halls h' uh' = Some [(hall_17_2, [Brand.mk (str "17.2-") [] [] [] [] []])].
Proof. eexists _, _, _, _, _, _. split_and!; reflexivity. Qed.

(** ** The claims about one row *)

(** C7. A row of category Info whose hall is found: when its note is not
    empty the description of the brand with the row's id becomes the
    note, whatever it was; when the note is empty or missing the
    description stays (empty for a brand the row creates); no entry is
    added to any [models] or [fullModelList]. *)
Theorem info_row_sets_description h0 sk ds rows row hallCode booth brandName rest i :
  skeleton_fields h0 sk = Some ds →
  parse_cols row = hallCode :: booth :: brandName :: str "Info" :: rest →
  find_hall (blank ds) hallCode = Some i →
  ∃ uh bm h V bm' h' V',
    run_rows sk rows h0 = Ret (uh, bm) h ∧ view_halls h uh = Some V ∧
    process_row uh bm row h = Ret bm' h' ∧ view_halls h' uh = Some V' ∧
    let k := brandId_of hallCode booth in
    let note := rest !! 2%nat in
    let before := default (Brand.mk k booth brandName [] [] []) (lookup_brand k V) in
    let update := if truthy note then set_description (default [] note) else id in
    V' = upsert_brand i k booth brandName update V ∧
    lookup_brand k V' = Some (update before) ∧
    Brand.description (update before) =
      (if truthy note then default [] note else Brand.description before) ∧
    key_models V' = key_models V ∧
    full_models V' = full_models V.
Proof.
  intros Hds Hc Hf.
  destruct (row_step h0 sk ds rows row Hds)
    as (uh & bm & h & V & bm' & h' & V' & E & HV & E' & HV' & _ & EV & EV' & Hfs & _ & _).
  exists uh, bm, h, V, bm', h', V'. split_and!; try done.
  assert (find_hall V hallCode = Some i) as Hf'.
  { by rewrite EV, find_hall_rows_effect. }
  rewrite (row_effect_resolved _ _ _ _ _ _ _ Hc Hf') in EV'.
  change ((str "Info" :: rest) !! 0%nat) with (Some (str "Info")) in EV'.
  change ((str "Info" :: rest) !! 1%nat) with (rest !! 0%nat) in EV'.
  change ((str "Info" :: rest) !! 2%nat) with (rest !! 1%nat) in EV'.
  change ((str "Info" :: rest) !! 3%nat) with (rest !! 2%nat) in EV'.
  rewrite category_update_Info in EV'. cbv zeta.
  set (update := if truthy (rest !! 2%nat) then _ else _) in *.
  assert (∀ b, Brand.id (update b) = Brand.id b) as Hid.
  { intros b. subst update. by destruct (truthy _). }
  apply find_hall_lt in Hf'. subst V'. split_and!.
  - done.
  - by apply lookup_brand_upsert.
  - subst update. by destruct (truthy _).
  - apply bind_all_brands_upsert; [|done]. intros b. subst update. by destruct (truthy _).
  - apply bind_all_brands_upsert; [|done]. intros b. subst update. by destruct (truthy _).
Qed.

Lemma info_row_sets_description_witness :
  skeleton_fields store1 0%nat = Some [hall_17_2] ∧
  parse_cols (str "17.2,A01,BYD,Info,,,Second note")
    = str "17.2" :: str "A01" :: str "BYD" :: str "Info"
        :: [str ""; str ""; str "Second note"] ∧
  find_hall (blank [hall_17_2]) (str "17.2") = Some 0%nat ∧
  ∃ uh bm h V bm' h' V',
    run_rows 0%nat [str "17.2,A01,BYD,Info,,,First note"] store1 = Ret (uh, bm) h ∧
    view_halls h uh = Some V ∧
    process_row uh bm (str "17.2,A01,BYD,Info,,,Second note") h = Ret bm' h' ∧
    view_halls h' uh = Some V' ∧
    let k := brandId_of (str "17.2") (str "A01") in
    let note := [str ""; str ""; str "Second note"] !! 2%nat in
    let before := default (Brand.mk k (str "A01") (str "BYD") [] [] []) (lookup_brand k V) in
    let update := if truthy note then set_description (default [] note) else id in
    V' = upsert_brand 0 k (str "A01") (str "BYD") update V ∧
    lookup_brand k V' = Some (update before) ∧
    Brand.description (update before) =
      (if truthy note then default [] note else Brand.description before) ∧
    key_models V' = key_models V ∧
    full_models V' = full_models V.
Proof.
  split_and!; [reflexivity..|].
  apply (info_row_sets_description store1 0%nat [hall_17_2]
           [str "17.2,A01,BYD,Info,,,First note"]
           (str "17.2,A01,BYD,Info,,,Second note")
           (str "17.2") (str "A01") (str "BYD")
           [str ""; str ""; str "Second note"] 0%nat); reflexivity.
Defined.

(** C2, as the code has it. A row of category Key (or Normal) whose hall
    is found and whose model name is not empty appends one entry to the
    [models] (or [fullModelList]) of the brand with the row's id: its
    name is the model name, its highlight the tag or the empty string,
    [isNewLaunch] tells Key from Normal, and its note is the note field
    as it is, undefined when the row has no seventh field. With an empty
    or missing model name the row appends nothing. *)
Theorem model_row_appends_entry h0 sk ds rows row hallCode booth brandName
    (key : bool) rest i :
  skeleton_fields h0 sk = Some ds →
  parse_cols row =
    hallCode :: booth :: brandName :: str (if key then "Key" else "Normal") :: rest →
  find_hall (blank ds) hallCode = Some i →
  ∃ uh bm h V bm' h' V',
    run_rows sk rows h0 = Ret (uh, bm) h ∧ view_halls h uh = Some V ∧
    process_row uh bm row h = Ret bm' h' ∧ view_halls h' uh = Some V' ∧
    let k := brandId_of hallCode booth in
    let modelName := rest !! 0%nat in
    let tag := rest !! 1%nat in
    let note := rest !! 2%nat in
    let entry := CarModel.mk (default [] modelName) (or_empty tag) key note in
    let before := default (Brand.mk k booth brandName [] [] []) (lookup_brand k V) in
    let update :=
      if truthy modelName
      then (if key then push_model entry else push_fullModel entry) else id in
    V' = upsert_brand i k booth brandName update V ∧
    lookup_brand k V' = Some (update before) ∧
    Brand.models (update before) =
      Brand.models before ++ (if truthy modelName && key then [entry] else []) ∧
    Brand.fullModelList (update before) =
      Brand.fullModelList before ++ (if truthy modelName && negb key then [entry] else []) ∧
    (if truthy modelName && key then True else key_models V' = key_models V) ∧
    (if truthy modelName && negb key then True else full_models V' = full_models V).
Proof.
  intros Hds Hc Hf.
  destruct (row_step h0 sk ds rows row Hds)
    as (uh & bm & h & V & bm' & h' & V' & E & HV & E' & HV' & _ & EV & EV' & Hfs & _ & _).
  exists uh, bm, h, V, bm', h', V'. split_and!; try done.
  assert (find_hall V hallCode = Some i) as Hf'.
  { by rewrite EV, find_hall_rows_effect. }
  rewrite (row_effect_resolved _ _ _ _ _ _ _ Hc Hf') in EV'.
  set (cat := str (if key then "Key" else "Normal")) in *.
  change ((cat :: rest) !! 0%nat) with (Some cat) in EV'.
  change ((cat :: rest) !! 1%nat) with (rest !! 0%nat) in EV'.
  change ((cat :: rest) !! 2%nat) with (rest !! 1%nat) in EV'.
  change ((cat :: rest) !! 3%nat) with (rest !! 2%nat) in EV'.
  cbv zeta.
  set (entry := CarModel.mk _ _ _ _).
  set (update := if truthy (rest !! 0%nat) then _ else _).
  assert (category_update (Some cat) (rest !! 0%nat) (rest !! 1%nat) (rest !! 2%nat)
          = update) as Hu.
  { subst cat update entry. destruct key;
      [by rewrite category_update_Key|by rewrite category_update_Normal]. }
  rewrite Hu in EV'.
  assert (∀ b, Brand.id (update b) = Brand.id b) as Hid.
  { intros b. subst update. by destruct (truthy _), key. }
  apply find_hall_lt in Hf'. subst V'. split_and!.
  - done.
  - by apply lookup_brand_upsert.
  - subst update. destruct (truthy _), key; simpl; by rewrite ?app_nil_r.
  - subst update. destruct (truthy _), key; simpl; by rewrite ?app_nil_r.
  - subst update. destruct (truthy _) eqn:Et, key; simpl; try done;
      (apply bind_all_brands_upsert; [|done]); by intros b.
  - subst update. destruct (truthy _) eqn:Et, key; simpl; try done;
      (apply bind_all_brands_upsert; [|done]); by intros b.
Qed.

Lemma model_row_appends_entry_witness :
  skeleton_fields store1 0%nat = Some [hall_17_2] ∧
  parse_cols (str "17.2,A01,BYD,Normal,Han,,sedan")
    = str "17.2" :: str "A01" :: str "BYD" :: str "Normal"
        :: [str "Han"; str ""; str "sedan"] ∧
  find_hall (blank [hall_17_2]) (str "17.2") = Some 0%nat ∧
  ∃ uh bm h V bm' h' V',
    run_rows 0%nat [str "17.2,A01,BYD,Key,Seal,NEW,first"] store1 = Ret (uh, bm) h ∧
    view_halls h uh = Some V ∧
    process_row uh bm (str "17.2,A01,BYD,Normal,Han,,sedan") h = Ret bm' h' ∧
    view_halls h' uh = Some V' ∧
    let k := brandId_of (str "17.2") (str "A01") in
    let modelName := [str "Han"; str ""; str "sedan"] !! 0%nat in
    let tag := [str "Han"; str ""; str "sedan"] !! 1%nat in
    let note := [str "Han"; str ""; str "sedan"] !! 2%nat in
    let entry := CarModel.mk (default [] modelName) (or_empty tag) false note in
    let before := default (Brand.mk k (str "A01") (str "BYD") [] [] []) (lookup_brand k V) in
    let update :=
      if truthy modelName
      then (if false then push_model entry else push_fullModel entry) else id in
    V' = upsert_brand 0 k (str "A01") (str "BYD") update V ∧
    lookup_brand k V' = Some (update before) ∧
    Brand.models (update before) =
      Brand.models before ++ (if truthy modelName && false then [entry] else []) ∧
    Brand.fullModelList (update before) =
      Brand.fullModelList before ++ (if truthy modelName && negb false then [entry] else []) ∧
    (if truthy modelName && false then True else key_models V' = key_models V) ∧
    (if truthy modelName && negb false then True else full_models V' = full_models V).
Proof.
  split_and!; [reflexivity..|].
  apply (model_row_appends_entry store1 0%nat [hall_17_2]
           [str "17.2,A01,BYD,Key,Seal,NEW,first"]
           (str "17.2,A01,BYD,Normal,Han,,sedan")
           (str "17.2") (str "A01") (str "BYD") false
           [str "Han"; str ""; str "sedan"] 0%nat); reflexivity.
Defined.

(** C2, the claim as stated fails: for a Key row of five fields the note
    of the entry is undefined, not the empty string. *)
Lemma key_row_without_note_field :
  let row := str "17.2,A01,BYD,Key,Seal" in
  ∃ uh bm h entry,
    run_rows 0%nat [row] store1 = Ret (uh, bm) h ∧
    view_halls h uh =
      Some [(hall_17_2,
             [Brand.mk (str "17.2-A01") (str "A01") (str "BYD") [] [entry] []])] ∧
    entry = CarModel.mk (str "Seal") [] true None ∧
    CarModel.note entry ≠ Some [].
Proof. eexists _, _, _, _. split_and!; [reflexivity..|done]. Qed.

(** C1, as the code has it. Brand ids are unique in the collection after
    any rows. A brand with the row's composite id exists exactly when an
    earlier row with at least three fields and a known hall code had the
    same composite id. If none had, the row creates the brand, named by
    the row's brand-name field, as the last brand of its hall, and the
    category update applies to it; if one had, no brand is created, every
    hall keeps its brands, and the category update applies to the brand
    with that id, whatever the category. The key is the id string: rows
    with different hall and booth codes share a brand when their ids
    coincide. *)
Theorem one_brand_per_composite_id h0 sk ds rows row hallCode booth brandName rest i :
  skeleton_fields h0 sk = Some ds →
  parse_cols row = hallCode :: booth :: brandName :: rest →
  find_hall (blank ds) hallCode = Some i →
  ∃ uh bm h V bm' h' V',
    run_rows sk rows h0 = Ret (uh, bm) h ∧ view_halls h uh = Some V ∧
    process_row uh bm row h = Ret bm' h' ∧ view_halls h' uh = Some V' ∧
    NoDup (brand_ids V) ∧ NoDup (brand_ids V') ∧
    let k := brandId_of hallCode booth in
    let update :=
      category_update (rest !! 0%nat) (rest !! 1%nat) (rest !! 2%nat) (rest !! 3%nat) in
    let created := update (Brand.mk k booth brandName [] [] []) in
    has_brand k V = bool_decide (Exists (fun r => row_key ds r = Some k) rows) ∧
    V' = (if has_brand k V then alter_brand k update V
          else attach_brand i created V) ∧
    (if has_brand k V then brand_ids V' = brand_ids V
     else V' !! i = (fun v : hall_view => (v.1, v.2 ++ [created])) <$> V !! i ∧
          Brand.id created = k ∧ Brand.booth created = booth ∧
          Brand.name created = brandName) ∧
    has_brand k V' = true.
Proof.
  intros Hds Hc Hf.
  destruct (row_step h0 sk ds rows row Hds)
    as (uh & bm & h & V & bm' & h' & V' & E & HV & E' & HV' & _ & EV & EV' & Hfs & Hnd & Hnd').
  exists uh, bm, h, V, bm', h', V'. split_and!; try done.
  assert (find_hall V hallCode = Some i) as Hf'.
  { by rewrite EV, find_hall_rows_effect. }
  rewrite (row_effect_resolved _ _ _ _ _ _ _ Hc Hf') in EV'. cbv zeta.
  set (k := brandId_of hallCode booth) in *.
  set (update := category_update _ _ _ _) in *.
  assert (∀ b, Brand.id (update b) = Brand.id b) as Hid.
  { intros b. apply category_update_id. }
  pose proof (find_hall_lt _ _ _ Hf') as Hi.
  split_and!.
  - unfold has_brand. apply bool_decide_ext. rewrite EV, brand_ids_rows_effect.
    rewrite brand_ids_blank, fields_blank, Exists_exists. split.
    + intros [H|H]; [by apply elem_of_nil in H|done].
    + by right.
  - done.
  - subst V'. unfold upsert_brand. destruct (has_brand k V) eqn:Eh.
    + by apply brand_ids_alter_brand.
    + unfold attach_brand. rewrite list_lookup_alter_eq. split_and!; try done.
      all: unfold update, category_update; by repeat case_match.
  - apply has_brand_true. subst V'. unfold upsert_brand.
    destruct (has_brand k V) eqn:Eh.
    + rewrite brand_ids_alter_brand by done. by apply has_brand_true.
    + rewrite brand_ids_attach_brand by done. rewrite Hid. by left.
Qed.

Lemma one_brand_per_composite_id_witness :
  skeleton_fields store1 0%nat = Some [hall_17_2] ∧
  parse_cols (str "17.2,A01,Other,Key,Seal,NEW")
    = str "17.2" :: str "A01" :: str "Other" :: [str "Key"; str "Seal"; str "NEW"] ∧
  find_hall (blank [hall_17_2]) (str "17.2") = Some 0%nat ∧
  ∃ uh bm h V bm' h' V',
    run_rows 0%nat [str "17.2,A01,BYD,Info,,,Great brand"] store1 = Ret (uh, bm) h ∧
    view_halls h uh = Some V ∧
    process_row uh bm (str "17.2,A01,Other,Key,Seal,NEW") h = Ret bm' h' ∧
    view_halls h' uh = Some V' ∧
    NoDup (brand_ids V) ∧ NoDup (brand_ids V') ∧
    let k := brandId_of (str "17.2") (str "A01") in
    let update :=
      category_update
        ([str "Key"; str "Seal"; str "NEW"] !! 0%nat)
        ([str "Key"; str "Seal"; str "NEW"] !! 1%nat)
        ([str "Key"; str "Seal"; str "NEW"] !! 2%nat)
        ([str "Key"; str "Seal"; str "NEW"] !! 3%nat) in
    let created := update (Brand.mk k (str "A01") (str "Other") [] [] []) in
    has_brand k V =
      bool_decide (Exists (fun r => row_key [hall_17_2] r = Some k)
                          [str "17.2,A01,BYD,Info,,,Great brand"]) ∧
    V' = (if has_brand k V then alter_brand k update V
          else attach_brand 0 created V) ∧
    (if has_brand k V then brand_ids V' = brand_ids V
     else V' !! 0%nat = (fun v : hall_view => (v.1, v.2 ++ [created])) <$> V !! 0%nat ∧
          Brand.id created = k ∧ Brand.booth created = str "A01" ∧
          Brand.name created = str "Other") ∧
    has_brand k V' = true.
Proof.
  split_and!; [reflexivity..|].
  apply (one_brand_per_composite_id store1 0%nat [hall_17_2]
           [str "17.2,A01,BYD,Info,,,Great brand"]
           (str "17.2,A01,Other,Key,Seal,NEW")
           (str "17.2") (str "A01") (str "Other")
           [str "Key"; str "Seal"; str "NEW"] 0%nat); reflexivity.
Defined.

(** C1, the claim as stated fails: with halls coded A-B and A, the row
    A,B-C,N2 is the first row with hall code A and booth code B-C, and its
    hall is found, yet it creates no brand: the id A-B-C is taken by the
    brand that the row A-B,C,N1 created in the other hall. Hall A stays
    without brands. *)
Lemma composite_id_collision :
  let first := str "A-B,C,N1" in
  let row := str "A,B-C,N2" in
  let brand := Brand.mk (str "A-B-C") (str "C") (str "N1") [] [] [] in
  parse_cols first = [str "A-B"; str "C"; str "N1"] ∧
  parse_cols row = [str "A"; str "B-C"; str "N2"] ∧
  find_hall (blank [hall_A_B; hall_A]) (str "A") = Some 1%nat ∧
  parsed_view 0%nat [first] store2 = Some [(hall_A_B, [brand]); (hall_A, [])] ∧
  parsed_view 0%nat [first; row] store2 = Some [(hall_A_B, [brand]); (hall_A, [])].
Proof. split_and!; vm_compute; reflexivity. Qed.

(** ** The claims about the row splitter *)

(** C4, as the code has it. The splitter cuts at a comma exactly when the
    rest of the row after it holds an even number of double quotes. So a
    field written between double quotes, whatever commas and doubled
    quotes it holds, comes out as one field with its content as value,
    provided the part of the row after it holds an even number of double
    quotes: alone, last, first, or between other fields. *)
Theorem quoted_field_stays_whole (p q v : jsstring) :
  even_quotes q = true →
  (∀ c rest, split_row (c :: rest) =
     if is_comma c && even_quotes rest then [] :: split_row rest
     else glue [c] (split_row rest)) ∧
  parse_cols (quoted (escape v)) = [v] ∧
  parse_cols (p ++ COMMA :: quoted (escape v)) = parse_cols p ++ [v] ∧
  parse_cols (quoted (escape v) ++ COMMA :: q) = v :: parse_cols q ∧
  parse_cols (p ++ COMMA :: quoted (escape v) ++ COMMA :: q)
    = parse_cols p ++ v :: parse_cols q.
Proof.
  intros Hq.
  assert (split_row (quoted (escape v)) = [quoted (escape v)]) as Halone.
  { rewrite <- (app_nil_r (quoted (escape v))) at 1.
    rewrite split_row_quoted by done. simpl. by rewrite app_nil_r. }
  assert (split_row (quoted (escape v) ++ COMMA :: q)
          = quoted (escape v) :: split_row q) as Hfirst.
  { rewrite split_row_quoted by done. simpl. rewrite Hq. simpl.
    by rewrite app_nil_r. }
  unfold parse_cols. split_and!.
  - intros c rest. simpl. destruct (is_comma c && even_quotes rest); [done|].
    by destruct (split_row rest).
  - by rewrite Halone; simpl; rewrite normalize_quoted.
  - rewrite split_row_sep by apply even_quotes_quoted.
    rewrite fmap_app, Halone. simpl. by rewrite normalize_quoted.
  - rewrite Hfirst. simpl. by rewrite normalize_quoted.
  - rewrite split_row_sep.
    + rewrite fmap_app, Hfirst. simpl. by rewrite normalize_quoted.
    + rewrite even_quotes_app. simpl. rewrite Hq. apply even_quotes_quoted.
Qed.

Lemma quoted_field_stays_whole_witness :
  let p := str "17.2,A01,Name,Key" in
  let q := str "NEW,note" in
  let v := str "Sedan, Luxury Edition" in
  even_quotes q = true ∧
  (∀ c rest, split_row (c :: rest) =
     if is_comma c && even_quotes rest then [] :: split_row rest
     else glue [c] (split_row rest)) ∧
  parse_cols (quoted (escape v)) = [v] ∧
  parse_cols (p ++ COMMA :: quoted (escape v)) = parse_cols p ++ [v] ∧
  parse_cols (quoted (escape v) ++ COMMA :: q) = v :: parse_cols q ∧
  parse_cols (p ++ COMMA :: quoted (escape v) ++ COMMA :: q)
    = parse_cols p ++ v :: parse_cols q.
Proof.
  split; [reflexivity|].
  apply (quoted_field_stays_whole (str "17.2,A01,Name,Key") (str "NEW,note")
           (str "Sedan, Luxury Edition")).
  reflexivity.
Defined.

(** C4, the claim as stated fails: in a row that goes on with a stray
    double quote, the comma inside the quoted field is followed by two
    quotes and is cut at; the field comes out as two fields, and the
    commas after it are not cut at. *)
Lemma quoted_field_before_stray_quote :
  let field := quoted (str "Sedan, Luxury Edition") in
  let row := field ++ str ",x," ++ QUOTE :: str "y" in
  parse_cols row =
    [QUOTE :: str "Sedan"; str "Luxury Edition" ++ QUOTE :: str ",x," ++ QUOTE :: str "y"] ∧
  length (parse_cols row) = 2%nat ∧
  parse_cols (field ++ str ",x,y") = [str "Sedan, Luxury Edition"; str "x"; str "y"].
Proof. split_and!; vm_compute; reflexivity. Qed.

(** Away from the one-character field that is a lone double quote, the
    normalization is the one the specification words: trim, strip one
    pair of surrounding quotes, collapse doubled quotes. *)
Lemma normalize_spec c : trim c ≠ [QUOTE] → normalize c = spec_normalize c.
Proof.
  unfold normalize, spec_normalize. intros Hne. f_equal.
  destruct (trim c) as [|c0 s'] eqn:Es; [done|].
  unfold strip_pair, startsWith_quote, endsWith_quote.
  destruct (reverse s') as [|d r] eqn:Er.
  - apply (f_equal reverse) in Er. rewrite reverse_involutive in Er. subst s'.
    simpl. destruct (is_quote c0) eqn:Eq; [|done].
    apply N.eqb_eq in Eq. by subst.
  - apply (f_equal reverse) in Er. rewrite reverse_involutive, reverse_cons in Er.
    subst s'. rewrite app_comm_cons, last_snoc.
    destruct (is_quote c0 && is_quote d); [|done].
    unfold slice_1_m1. simpl. rewrite drop_0, length_app. simpl.
    replace (length (reverse r) + 1 - 0 - 1)%nat with (length (reverse r)) by lia.
    by rewrite take_app_length.
Qed.

(** C5. The code at the input where it leaves the claim: the first field
    of the row is a lone double quote; it has no pair of quotes to
    strip, yet the code strips it and the field comes out empty.
    Everywhere else the code normalizes as the claim says, as on the
    field with a doubled quote. *)
Theorem lone_quote_field_is_emptied :
  let row := QUOTE :: str ",b,c" in
  let engine := str "5.0" ++ QUOTE :: QUOTE :: str "L Engine" in
  split_row row = [[QUOTE]; str "b"; str "c"] ∧
  trim [QUOTE] = [QUOTE] ∧
  spec_normalize [QUOTE] = [QUOTE] ∧
  normalize [QUOTE] = [] ∧
  parse_cols row = [[]; str "b"; str "c"] ∧
  normalize (quoted engine) = str "5.0" ++ QUOTE :: str "L Engine" ∧
  (∀ c, trim c ≠ [QUOTE] → normalize c = spec_normalize c).
Proof. split_and!; try (vm_compute; reflexivity). apply normalize_spec. Qed.

(** ** The claim about the side panel *)

Section sidebar.

Variable localeCompare : jsstring → jsstring → Z.

Hypothesis compare_total : ∀ a b,
  (0 < localeCompare a b)%Z → (localeCompare b a ≤ 0)%Z.
Hypothesis compare_trans : ∀ a b c,
  (localeCompare a b ≤ 0)%Z → (localeCompare b c ≤ 0)%Z → (localeCompare a c ≤ 0)%Z.

Lemma mapM_read_brand h xs bs :
  Forall2 (fun l b => brands h !! l = Some b) xs bs →
  mapM read_brand xs h = Ret bs h.
Proof.
  induction 1 as [|l b xs bs Hb _ IH]; [done|]. simpl.
  rewrite (bind_Ret _ _ _ _ _ (read_brand_Some _ _ _ Hb)).
  by rewrite (bind_Ret _ _ _ _ _ IH).
Qed.

(** C10. For a hall in the store, the side panel's list is a new array:
    it holds the hall's brands, each once, in ascending order of booth
    under [localeCompare]; the hall's own [brands] array, like every
    object that existed before, is as it was, so the hall still denotes
    its brands in the parser's order. *)
Theorem sidebar_sorts_a_copy h hall d bs :
  view_hall h hall = Some (d, bs) →
  ∃ copy h' sorted,
    sortedBrands localeCompare hall h = Ret copy h' ∧
    arrays h !! copy = None ∧
    view_brands h' copy = Some sorted ∧
    sorted ≡ₚ bs ∧
    StronglySorted
      (fun a b => (localeCompare (Brand.booth a) (Brand.booth b) ≤ 0)%Z) sorted ∧
    preserved h h' ∧
    view_hall h' hall = Some (d, bs).
Proof.
  unfold view_hall, view_brands. intros Hv.
  destruct (halls h !! hall) as [o|] eqn:Ho; [|done]. simpl in Hv.
  destruct (arrays h !! Hall.brands o) as [xs|] eqn:Hxs; [|done]. simpl in Hv.
  destruct (list.mapM (λ l, brands h !! l) xs) as [bs0|] eqn:Hm; [|done].
  simpl in Hv. injection Hv as <- <-. apply mapM_Some in Hm.
  set (ps := sort_with (by_booth localeCompare) (zip xs bs0)).
  set (h1 := mkheap (halls h) (arrays h ++ [xs]) (brands h)).
  set (h' := mkheap (halls h) (arrays h ++ [ps.*1]) (brands h)).
  assert (ps ≡ₚ zip xs bs0) as Hperm by apply sort_with_Permutation.
  exists (length (arrays h)), h', (ps.*2). split_and!.
  - unfold sortedBrands.
    rewrite (bind_Ret _ _ _ _ _ (read_hall_Some _ _ _ Ho)).
    rewrite (bind_Ret _ _ _ _ _ (read_array_Some _ _ _ Hxs)).
    unfold bind at 1. unfold alloc_array at 1. fold h1. unfold sort_by_booth.
    assert (arrays h1 !! length (arrays h) = Some xs) as Hc.
    { simpl. by apply list_lookup_middle. }
    rewrite (bind_Ret _ _ _ _ _ (read_array_Some _ _ _ Hc)).
    rewrite (bind_Ret _ _ _ _ _ (mapM_read_brand h1 xs bs0 Hm)).
    unfold bind, write_array. rewrite Hc. unfold ret. f_equal.
    subst h' h1. simpl. f_equal.
    rewrite insert_app_r_alt by lia. by rewrite Nat.sub_diag.
  - by apply lookup_ge_None.
  - subst h'. simpl. rewrite list_lookup_middle by done. simpl.
    apply mapM_Some. apply Forall2_fmap. apply Forall_Forall2_diag.
    apply Forall_forall. intros [l b] Hin. rewrite Hperm in Hin.
    apply list_elem_of_lookup in Hin as (j & Hj).
    apply lookup_zip_Some in Hj as [Hl Hb]. simpl.
    apply (Forall2_lookup_lr _ _ _ _ _ _ Hm Hl Hb).
  - rewrite Hperm. rewrite snd_zip; [done|].
    by rewrite (Forall2_length _ _ _ Hm).
  - apply (StronglySorted_fmap snd (le_by (by_booth localeCompare))).
    + by intros [? ?] [? ?].
    + apply sort_with_StronglySorted.
      * intros x y. apply compare_total.
      * intros x y z. apply compare_trans.
  - subst h'. repeat split; simpl; try done. intros l o'. apply lookup_app_l_Some.
  - subst h'. simpl. rewrite Ho. simpl.
    rewrite (lookup_app_l_Some _ _ _ _ Hxs). simpl.
    apply mapM_Some in Hm. by rewrite Hm.
Qed.

End sidebar.

Lemma sidebar_sorts_a_copy_witness :
  (∀ a b, (0 < by_length a b)%Z → (by_length b a ≤ 0)%Z) ∧
  (∀ a b c, (by_length a b ≤ 0)%Z → (by_length b c ≤ 0)%Z → (by_length a c ≤ 0)%Z) ∧
  view_hall store3 0%nat = Some (hall_17_2, [brand_B10; brand_A1]) ∧
  ∃ copy h' sorted,
    sortedBrands by_length 0%nat store3 = Ret copy h' ∧
    arrays store3 !! copy = None ∧
    view_brands h' copy = Some sorted ∧
    sorted ≡ₚ [brand_B10; brand_A1] ∧
    StronglySorted
      (fun a b => (by_length (Brand.booth a) (Brand.booth b) ≤ 0)%Z) sorted ∧
    preserved store3 h' ∧
    view_hall h' 0%nat = Some (hall_17_2, [brand_B10; brand_A1]).
Proof.
  assert (∀ a b, (0 < by_length a b)%Z → (by_length b a ≤ 0)%Z) as Htotal.
  { intros a b. unfold by_length. lia. }
  assert (∀ a b c, (by_length a b ≤ 0)%Z → (by_length b c ≤ 0)%Z →
                   (by_length a c ≤ 0)%Z) as Htrans.
  { intros a b c. unfold by_length. lia. }
  split_and!; [exact Htotal|exact Htrans|reflexivity|].
  apply (sidebar_sorts_a_copy by_length Htotal Htrans). reflexivity.
Defined.

(** The order shown is the sorted one, not the order of first sight, and
    the hall keeps the latter. *)
Example sidebar_order_differs :
  match sortedBrands by_length 0%nat store3 with
  | Ret copy h' =>
      view_brands h' copy = Some [brand_A1; brand_B10] ∧
      view_hall h' 0%nat = Some (hall_17_2, [brand_B10; brand_A1])
  | Throw _ _ => False
  end.
Proof. vm_compute. done. Qed.

(** ** The look-ahead of the separator pattern is the parity scan *)

Section lookahead_facts.

Import Regex.

Implicit Types (s t : jsstring).

Lemma is_quote_true c : is_quote c = true ↔ c = QUOTE.
Proof. apply N.eqb_eq. Qed.

Lemma is_quote_false c : is_quote c = false ↔ c ≠ QUOTE.
Proof. apply N.eqb_neq. Qed.

Lemma matches_no_quote s t :
  matches (Star (NotChr QUOTE)) s → even_quotes (s ++ t) = even_quotes t.
Proof.
  remember (Star (NotChr QUOTE)) as r eqn:Er. intros Hm. revert Er.
  induction Hm as [| | | |r s1 s2 H1 _ H2 IH]; try done.
  intros [= ->]. inversion H1 as [|c d Hd| | |]; subst.
  rewrite <- app_assoc. simpl. apply is_quote_false in Hd. rewrite Hd. by apply IH.
Qed.

Lemma matches_quote_group s t :
  matches quote_group s → even_quotes (s ++ t) = negb (even_quotes t).
Proof.
  intros Hm. inversion Hm as [| |r1 r2 s1 s2 H1 H2| |]; subst.
  inversion H2; subst. rewrite <- app_assoc.
  by rewrite (matches_no_quote _ _ H1).
Qed.

Lemma matches_quote_groups s t :
  matches (Star (Seq quote_group quote_group)) s →
  even_quotes (s ++ t) = even_quotes t.
Proof.
  remember (Star (Seq quote_group quote_group)) as r eqn:Er. intros Hm. revert Er.
  induction Hm as [| | | |r s1 s2 H1 _ H2 IH]; try done.
  intros [= ->]. inversion H1 as [| |r1 r2 u1 u2 Hu1 Hu2| |]; subst.
  rewrite <- !app_assoc.
  rewrite (matches_quote_group _ _ Hu1), (matches_quote_group _ _ Hu2).
  rewrite negb_involutive. by apply IH.
Qed.

(** A string starts with a quote-free stretch that is followed by a
    quote or by the end. *)
Lemma quote_free_prefix s :
  ∃ a, matches (Star (NotChr QUOTE)) a ∧ (s = a ∨ ∃ b, s = a ++ QUOTE :: b).
Proof.
  induction s as [|c s (a & Ha & Hs)].
  - exists []. split; [constructor|by left].
  - destruct (is_quote c) eqn:Ec.
    + apply is_quote_true in Ec as ->. exists []. split; [constructor|].
      right. by exists s.
    + apply is_quote_false in Ec. exists (c :: a). split.
      * apply (matches_star_cons _ [c] a); [by constructor|done].
      * destruct Hs as [->|(b & ->)]; [by left|right; by exists b].
Qed.

Lemma lookahead_complete n : ∀ s,
  (length s ≤ n)%nat → even_quotes s = true → matches lookahead s.
Proof.
  induction n as [|n IH]; intros s Hn He.
  - destruct s; [|simpl in Hn; lia].
    apply (matches_seq _ _ [] []); constructor.
  - destruct (quote_free_prefix s) as (a & Ha & [->|(b & ->)]).
    { apply (matches_seq _ _ [] a); [constructor|done]. }
    rewrite (matches_no_quote _ _ Ha) in He. simpl in He.
    destruct (quote_free_prefix b) as (a2 & Ha2 & [->|(b2 & ->)]).
    { rewrite <- (app_nil_r a2), (matches_no_quote _ _ Ha2) in He. done. }
    rewrite (matches_no_quote _ _ Ha2) in He. simpl in He.
    rewrite negb_involutive in He.
    assert (matches lookahead b2) as Hb2.
    { apply IH; [|done]. rewrite !length_app in Hn. simpl in Hn.
      rewrite length_app in Hn. simpl in Hn. lia. }
    inversion Hb2 as [| |r1 r2 x y Hx Hy| |]; subst.
    replace (a ++ QUOTE :: a2 ++ QUOTE :: x ++ y)
      with ((((a ++ [QUOTE]) ++ (a2 ++ [QUOTE])) ++ x) ++ y)
      by (by rewrite <- !app_assoc).
    apply matches_seq; [|done]. apply matches_star_cons; [|done].
    apply matches_seq; (apply matches_seq; [done|constructor]).
Qed.

(** X1. The pattern's look-ahead succeeds on the rest of the row exactly
    when the rest holds an even number of double quotes: the scan
    [even_quotes] that [split_row] uses decides the look-ahead. *)
Theorem lookahead_is_parity_scan s : matches lookahead s ↔ even_quotes s = true.
Proof.
  split.
  - intros Hm. inversion Hm as [| |r1 r2 s1 s2 H1 H2| |]; subst.
    rewrite (matches_quote_groups _ _ H1).
    rewrite <- (app_nil_r s2). by rewrite (matches_no_quote _ _ H2).
  - by apply (lookahead_complete (length s)).
Qed.

End lookahead_facts.

(** ** Further properties *)

Section well_formed_rows.

Implicit Types (s : jsstring) (c : N) (f : field) (fs : list field).

Lemma split_row_no_comma s : COMMA ∉ s → split_row s = [s].
Proof.
  induction s as [|c s IH]; [done|]. rewrite not_elem_of_cons. intros [Hc Hs].
  simpl. rewrite (IH Hs). unfold is_comma.
  by rewrite (proj2 (N.eqb_neq c COMMA)) by congruence.
Qed.

Lemma even_quotes_no_quote s : QUOTE ∉ s → even_quotes s = true.
Proof.
  induction s as [|c s IH]; [done|]. rewrite not_elem_of_cons. intros [Hc Hs].
  simpl. rewrite (proj2 (is_quote_false c)) by congruence. by apply IH.
Qed.

Lemma unescape_no_quote s : QUOTE ∉ s → unescape_quotes s = s.
Proof.
  induction s as [|c s IH]; [done|]. rewrite not_elem_of_cons. intros [Hc Hs].
  rewrite unescape_cons_other by (apply is_quote_false; congruence).
  by rewrite IH.
Qed.

Lemma elem_of_trimStart c s : c ∈ trimStart s → c ∈ s.
Proof.
  induction s as [|d s IH]; [done|]. simpl. destruct (is_space d); [|done].
  intros H. right. by apply IH.
Qed.

Lemma elem_of_trim c s : c ∈ trim s → c ∈ s.
Proof.
  unfold trim, trimEnd. intros H. rewrite elem_of_reverse in H.
  apply elem_of_trimStart in H. rewrite elem_of_reverse in H.
  by apply elem_of_trimStart.
Qed.

Lemma normalize_no_quote s : QUOTE ∉ s → normalize s = trim s.
Proof.
  intros Hs. assert (QUOTE ∉ trim s) as Ht by (intros H; by apply Hs, elem_of_trim).
  unfold normalize. destruct (trim s) as [|c s'] eqn:E; [done|].
  apply not_elem_of_cons in Ht as [Hc Hs'].
  unfold startsWith_quote. rewrite (proj2 (is_quote_false c)) by congruence.
  simpl negb. cbv iota. apply unescape_no_quote.
  apply not_elem_of_cons. done.
Qed.

Lemma split_row_render_field f :
  field_ok f → split_row (render_field f) = [render_field f].
Proof.
  destruct f as [s|v]; cbn [render_field field_ok].
  - intros [Hc _]. by apply split_row_no_comma.
  - intros _. rewrite <- (app_nil_r (quoted (escape v))) at 1.
    rewrite split_row_quoted by done. simpl. by rewrite app_nil_r.
Qed.

Lemma normalize_render_field f :
  field_ok f → normalize (render_field f) = field_value f.
Proof.
  destruct f as [s|v]; cbn [render_field field_ok field_value].
  - intros [_ Hq]. by apply normalize_no_quote.
  - intros _. apply normalize_quoted.
Qed.

Lemma even_quotes_render_field f :
  field_ok f → even_quotes (render_field f) = true.
Proof.
  destruct f as [s|v]; cbn [render_field field_ok].
  - intros [_ Hq]. by apply even_quotes_no_quote.
  - intros _. apply even_quotes_quoted.
Qed.

Lemma even_quotes_render_row fs : ∀ f,
  Forall field_ok (f :: fs) → even_quotes (render_row f fs) = true.
Proof.
  induction fs as [|f' fs IH]; intros f [Hf Hfs]%Forall_cons; simpl.
  - by apply even_quotes_render_field.
  - rewrite even_quotes_app. simpl. rewrite (IH f' Hfs).
    by apply even_quotes_render_field.
Qed.

(** X2. Round trip: a row written from well-formed fields, bare ones
    without comma and quote, quoted ones with any content and their
    quotes doubled, is read back as the values of its fields, one column
    per field. *)
Theorem well_formed_row_round_trip f fs :
  Forall field_ok (f :: fs) →
  parse_cols (render_row f fs) = field_value <$> (f :: fs).
Proof.
  unfold parse_cols. revert f.
  induction fs as [|f' fs IH]; intros f Hall;
    pose proof Hall as [Hf Hfs]%Forall_cons; simpl.
  - by rewrite split_row_render_field, <- normalize_render_field.
  - rewrite split_row_sep by (by apply even_quotes_render_row).
    rewrite fmap_app, split_row_render_field by done. simpl.
    rewrite normalize_render_field by done. f_equal. by apply IH.
Qed.

Lemma well_formed_row_round_trip_witness :
  let f := Bare (str "17.2") in
  let fs := [Bare (str " A01 "); Quoted (str "BYD, Auto"); Bare (str "Key");
             Quoted (str "5.0" ++ QUOTE :: str "L Engine"); Bare (str ""); Bare (str "")] in
  Forall field_ok (f :: fs) ∧
  parse_cols (render_row f fs) = field_value <$> (f :: fs).
Proof.
  assert (Forall field_ok
            (Bare (str "17.2") ::
             [Bare (str " A01 "); Quoted (str "BYD, Auto"); Bare (str "Key");
              Quoted (str "5.0" ++ QUOTE :: str "L Engine"); Bare (str ""); Bare (str "")]))
    as Hok.
  { repeat (apply Forall_cons; split); try apply Forall_nil_2; try done;
      split; not_in_list. }
  split; [exact Hok|]. by apply well_formed_row_round_trip.
Defined.

End well_formed_rows.

Section header_line.

Lemma split_on_first_line sep (a b : jsstring) :
  sep ∉ a → split_on sep (a ++ sep :: b) = a :: split_on sep b.
Proof.
  induction a as [|c a IH]; simpl.
  - intros _. by rewrite N.eqb_refl.
  - rewrite not_elem_of_cons. intros [Hc Ha]. rewrite (IH Ha).
    by rewrite (proj2 (N.eqb_neq c sep)) by congruence.
Qed.

(** X3. The first line of the document is dropped whatever it holds, and
    the rows are the lines after it that are not blank. *)
Theorem header_line_is_discarded (first body : jsstring) :
  NEWLINE ∉ first →
  rows_of (first ++ NEWLINE :: body) =
    filter (fun r => trim r ≠ []) (split_on NEWLINE body).
Proof. intros H. unfold rows_of. by rewrite split_on_first_line. Qed.

Lemma header_line_is_discarded_witness :
  (NEWLINE ∉ str "any header, even 17.2,A01,BYD") ∧
  rows_of (str "any header, even 17.2,A01,BYD" ++ NEWLINE :: str "17.2,A02,Nio") =
    filter (fun r => trim r ≠ []) (split_on NEWLINE (str "17.2,A02,Nio")).
Proof.
  split; [not_in_list|]. apply header_line_is_discarded. not_in_list.
Defined.

End header_line.

Section reparse.

(** X4. Parsing the same document again against the same skeleton, in
    the store the first parse left, yields a second array that denotes
    the same collection, and leaves the first result as it was. *)
Theorem reparse_yields_same_collection h0 sk Vsk fetch csvUrl r t :
  view_halls h0 sk = Some Vsk →
  fetch csvUrl = Resolved r →
  text r = Some t →
  ∃ uh1 h1 uh2 h2 V,
    parseBrandsCSV fetch csvUrl sk h0 = Ret uh1 h1 ∧
    parseBrandsCSV fetch csvUrl sk h1 = Ret uh2 h2 ∧
    view_halls h1 uh1 = Some V ∧
    view_halls h2 uh2 = Some V ∧
    view_halls h2 uh1 = Some V ∧
    uh1 ≠ uh2.
Proof.
  intros Hsk Hf Ht.
  pose proof (view_halls_skeleton_fields _ _ _ Hsk) as Hds.
  destruct (parse_resolved_rep _ _ _ _ _ _ _ Hds Hf Ht) as (uh1 & S1 & bm1 & h1 & E1 & R1).
  pose proof (preserved_view_halls _ _ _ _ (rep_pres _ _ _ _ _ _ R1) Hsk) as Hsk1.
  pose proof (view_halls_skeleton_fields _ _ _ Hsk1) as Hds1.
  destruct (parse_resolved_rep _ _ _ _ _ _ _ Hds1 Hf Ht) as (uh2 & S2 & bm2 & h2 & E2 & R2).
  pose proof (rep_view_halls _ _ _ _ _ _ R1) as HV1.
  exists uh1, h1, uh2, h2, (rows_effect (rows_of t) (blank (fst <$> Vsk))).
  split_and!; try done.
  - by eapply rep_view_halls.
  - eapply preserved_view_halls; [apply R2|done].
  - pose proof (rep_uh _ _ _ _ _ _ R1) as H1%lookup_lt_Some.
    pose proof (rep_arr_fresh _ _ _ _ _ _ R2 uh2 ltac:(left)) as H2. lia.
Qed.

Lemma reparse_yields_same_collection_witness :
  view_halls store1 0%nat = Some [(hall_17_2, [])] ∧
  serve true 200 doc1 url = Resolved (mkResponse true 200 (Some doc1)) ∧
  text (mkResponse true 200 (Some doc1)) = Some doc1 ∧
  ∃ uh1 h1 uh2 h2 V,
    parseBrandsCSV (serve true 200 doc1) url 0%nat store1 = Ret uh1 h1 ∧
    parseBrandsCSV (serve true 200 doc1) url 0%nat h1 = Ret uh2 h2 ∧
    view_halls h1 uh1 = Some V ∧
    view_halls h2 uh2 = Some V ∧
    view_halls h2 uh1 = Some V ∧
    uh1 ≠ uh2.
Proof.
  split_and!; [reflexivity..|].
  apply (reparse_yields_same_collection store1 0%nat [(hall_17_2, [])]
           (serve true 200 doc1) url (mkResponse true 200 (Some doc1)) doc1);
    reflexivity.
Defined.

End reparse.

(** ** Splitting loses nothing; rows without quotes; blanks around a row *)

Section split_facts.

Implicit Types (row s w : jsstring) (c : N).

Lemma split_on_not_nil sep s : split_on sep s ≠ [].
Proof. destruct s as [|c s]; simpl; [done|]. destruct (c =? sep); [done|]. by destruct (split_on sep s). Qed.

Lemma join_cons_first sep c f fs :
  join sep ((c :: f) :: fs) = c :: join sep (f :: fs).
Proof. by destruct fs. Qed.

(** X5. Splitting loses nothing but the separators: the raw fields of a
    row, joined with commas, are the row again, and so are the lines of a
    text joined with line feeds. *)
Theorem split_then_join_restores row :
  join COMMA (split_row row) = row ∧ join NEWLINE (split_on NEWLINE row) = row.
Proof.
  split.
  - induction row as [|c rest IH]; [done|]. simpl.
    destruct (is_comma c && even_quotes rest) eqn:E.
    + apply andb_prop in E as [Ec _]. apply N.eqb_eq in Ec as ->.
      pose proof (split_row_not_nil rest). simpl.
      destruct (split_row rest) eqn:E'; [done|]. by rewrite IH.
    + pose proof (split_row_not_nil rest).
      destruct (split_row rest) as [|f fs] eqn:E'; [done|].
      by rewrite join_cons_first, IH.
  - induction row as [|c rest IH]; [done|]. simpl.
    destruct (c =? NEWLINE) eqn:E.
    + apply N.eqb_eq in E as ->.
      pose proof (split_on_not_nil NEWLINE rest). simpl.
      destruct (split_on NEWLINE rest) eqn:E'; [done|]. by rewrite IH.
    + pose proof (split_on_not_nil NEWLINE rest).
      destruct (split_on NEWLINE rest) as [|f fs] eqn:E'; [done|].
      by rewrite join_cons_first, IH.
Qed.

End split_facts.

Section quote_free_rows.

Implicit Types (row s w f : jsstring) (c : N).

Lemma split_row_no_quote row : QUOTE ∉ row → split_row row = split_on COMMA row.
Proof.
  induction row as [|c rest IH]; [done|]. rewrite not_elem_of_cons. intros [_ Hq].
  simpl. rewrite (even_quotes_no_quote _ Hq), andb_true_r, (IH Hq). done.
Qed.

Lemma elem_of_split_on sep s f c : f ∈ split_on sep s → c ∈ f → c ∈ s.
Proof.
  revert f. induction s as [|d s IH]; intros f; simpl.
  - intros ->%list_elem_of_singleton Hc. by apply elem_of_nil in Hc.
  - pose proof (split_on_not_nil sep s) as Hn.
    destruct (d =? sep).
    + intros [->|Hf]%elem_of_cons Hc; [by apply elem_of_nil in Hc|].
      right. by apply (IH f).
    + destruct (split_on sep s) as [|g gs]; [done|].
      intros [->|Hf]%elem_of_cons Hc.
      * apply elem_of_cons in Hc as [->|Hc]; [by left|].
        right. apply (IH g); [by left|done].
      * right. apply (IH f); [by right|done].
Qed.

(** X6. On a row without a double quote the separator pattern cuts at
    every comma and the normalization only trims: the columns are those
    of the plain split of the earlier revision. *)
Theorem quote_free_row_splits_at_commas row :
  QUOTE ∉ row → parse_cols row = split_trim row.
Proof.
  intros Hq. unfold parse_cols, split_trim. rewrite (split_row_no_quote _ Hq).
  apply list_fmap_ext. intros i f Hf%list_elem_of_lookup_2.
  apply normalize_no_quote. intros Hc. apply Hq. by apply (elem_of_split_on COMMA row f).
Qed.

Lemma quote_free_row_splits_at_commas_witness :
  (QUOTE ∉ str "17.2, A01 ,BYD,Key,Seal") ∧
  parse_cols (str "17.2, A01 ,BYD,Key,Seal") = split_trim (str "17.2, A01 ,BYD,Key,Seal").
Proof.
  split; [not_in_list|]. apply quote_free_row_splits_at_commas. not_in_list.
Defined.

End quote_free_rows.

Section blanks_around_a_row.

Implicit Types (row s w f g : jsstring) (c : N).

Lemma space_not_comma c : is_space c = true → is_comma c = false.
Proof.
  intros Hs. destruct (is_comma c) eqn:E; [|done].
  apply N.eqb_eq in E as ->. done.
Qed.

Lemma space_not_quote c : is_space c = true → is_quote c = false.
Proof.
  intros Hs. destruct (is_quote c) eqn:E; [|done].
  apply N.eqb_eq in E as ->. done.
Qed.

Lemma trimStart_all_space w s : all_space w → trimStart (w ++ s) = trimStart s.
Proof. induction 1 as [|c w Hc _ IH]; [done|]. simpl. by rewrite Hc. Qed.

Lemma trimStart_all_space_nil w : all_space w → trimStart w = [].
Proof. intros H. rewrite <- (app_nil_r w). by rewrite trimStart_all_space. Qed.

Lemma trimStart_app s w :
  trimStart s ≠ [] → trimStart (s ++ w) = trimStart s ++ w.
Proof.
  induction s as [|c s IH]; [done|]. simpl. destruct (is_space c); [apply IH|done].
Qed.

Lemma all_space_reverse w : all_space w → all_space (reverse w).
Proof. unfold all_space. by rewrite Forall_reverse. Qed.

Lemma trimEnd_all_space s w : all_space w → trimEnd (s ++ w) = trimEnd s.
Proof.
  intros Hw. unfold trimEnd. rewrite reverse_app.
  by rewrite trimStart_all_space by by apply all_space_reverse.
Qed.

Lemma trim_all_space_l w s : all_space w → trim (w ++ s) = trim s.
Proof. intros Hw. unfold trim. by rewrite trimStart_all_space. Qed.

Lemma trim_all_space_r s w : all_space w → trim (s ++ w) = trim s.
Proof.
  intros Hw. unfold trim. destruct (trimStart s) as [|c t] eqn:E.
  - assert (all_space s) as Hs.
    { clear -E. induction s as [|c s IH]; [apply Forall_nil_2|]. simpl in E.
      destruct (is_space c) eqn:Ec; [|done]. apply Forall_cons. split; [done|by apply IH]. }
    rewrite trimStart_all_space by done. by rewrite trimStart_all_space_nil.
  - rewrite trimStart_app by by rewrite E. rewrite E. by apply trimEnd_all_space.
Qed.

Lemma normalize_all_space_l w s : all_space w → normalize (w ++ s) = normalize s.
Proof. intros Hw. unfold normalize. by rewrite trim_all_space_l. Qed.

Lemma normalize_all_space_r s w : all_space w → normalize (s ++ w) = normalize s.
Proof. intros Hw. unfold normalize. by rewrite trim_all_space_r. Qed.

Lemma even_quotes_all_space_r s w : all_space w → even_quotes (s ++ w) = even_quotes s.
Proof.
  intros Hw. rewrite even_quotes_app.
  assert (even_quotes w = true) as ->.
  { induction Hw as [|c w Hc _ IH]; [done|]. simpl. by rewrite (space_not_quote _ Hc). }
  by destruct (even_quotes s).
Qed.

(** Blanks behind a row end up behind its last field. *)
Lemma split_row_all_space_r row w :
  all_space w →
  Forall2 (fun f g => f = g ∨ f = g ++ w) (split_row (row ++ w)) (split_row row).
Proof.
  intros Hw. induction row as [|c rest IH].
  - simpl. rewrite split_row_no_comma.
    + apply Forall2_cons; split; [by right|apply Forall2_nil_2].
    + intros Hin. unfold all_space in Hw. rewrite Forall_forall in Hw.
      apply Hw in Hin. done.
  - simpl. rewrite (even_quotes_all_space_r _ _ Hw).
    destruct (is_comma c && even_quotes rest).
    + apply Forall2_cons; split; [by left|done].
    + pose proof (split_row_not_nil rest) as Hn.
      destruct (split_row (rest ++ w)) as [|f fs], (split_row rest) as [|g gs];
        try done; [by apply Forall2_nil_cons_inv in IH|].
      apply Forall2_cons in IH as [[->| ->] Hfs];
        (apply Forall2_cons; split; [|done]); [by left|by right].
Qed.

(** Blanks in front of a row end up in front of its first field. *)
Lemma split_row_all_space_l w row :
  all_space w →
  Forall2 (fun f g => f = g ∨ f = w ++ g) (split_row (w ++ row)) (split_row row).
Proof.
  intros Hw. rewrite split_row_glue.
  - pose proof (split_row_not_nil row) as Hn.
    destruct (split_row row) as [|f fs]; [done|]. simpl.
    apply Forall2_cons; split; [by right|]. apply Forall2_same_length_lookup_2; [done|].
    intros i x y Hx Hy. left. congruence.
  - intros x1 x2 ->. unfold all_space in Hw. rewrite Forall_forall in Hw.
    assert (is_space COMMA = true) as Hc by (apply Hw; set_solver). done.
Qed.

(** X7. Blanks around a row do not matter: white space and line
    terminators in front of a row and behind it, such as the carriage
    return a Windows line ending leaves at the end of every line, change
    none of its columns. *)
Theorem blanks_around_row_are_ignored (w1 row w2 : jsstring) :
  all_space w1 → all_space w2 → parse_cols (w1 ++ row ++ w2) = parse_cols row.
Proof.
  intros H1 H2. unfold parse_cols. transitivity (normalize <$> split_row (row ++ w2)).
  - apply list_eq_Forall2. apply Forall2_fmap.
    eapply Forall2_impl; [apply (split_row_all_space_l w1 (row ++ w2) H1)|].
    intros f g [->| ->]; [done|]. by apply normalize_all_space_l.
  - apply list_eq_Forall2. apply Forall2_fmap.
    eapply Forall2_impl; [apply (split_row_all_space_r row w2 H2)|].
    intros f g [->| ->]; [done|]. by apply normalize_all_space_r.
Qed.

Lemma blanks_around_row_are_ignored_witness :
  all_space [32] ∧ all_space [13] ∧
  parse_cols ([32] ++ str "17.2,A01,BYD,Key,Seal" ++ [13])
    = parse_cols (str "17.2,A01,BYD,Key,Seal").
Proof.
  assert (all_space [32]) as H1 by (by apply Forall_cons).
  assert (all_space [13]) as H2 by (by apply Forall_cons).
  split_and!; [exact H1|exact H2|]. by apply blanks_around_row_are_ignored.
Defined.

End blanks_around_a_row.

(** ** The collection as a function of the document *)

Section document.

Variable ds : list Hall.data.

Implicit Types (rows : list jsstring) (row r k : jsstring) (V : list hall_view)
  (b : Brand.t) (i j : nat).

Lemma row_effect_no_key row V :
  fst <$> V = ds → row_key ds row = None → row_effect row V = V.
Proof.
  intros HV. unfold row_key, row_effect.
  destruct (parse_cols row) as [|hc [|booth [|name rest]]]; try done.
  case_bool_decide as Hin; [done|]. intros _.
  destruct (find_hall V hc) eqn:E; [|done].
  exfalso. apply Hin. rewrite <- HV. apply find_hall_is_Some. eauto.
Qed.

Lemma row_effect_key row V k :
  fst <$> V = ds → row_key ds row = Some k →
  ∃ hc booth name rest j,
    parse_cols row = hc :: booth :: name :: rest ∧ k = brandId_of hc booth ∧
    find_hall (blank ds) hc = Some j ∧ (j < length V)%nat ∧
    row_effect row V =
      upsert_brand j k booth name
        (category_update (rest !! 0%nat) (rest !! 1%nat) (rest !! 2%nat) (rest !! 3%nat)) V.
Proof.
  intros HV. unfold row_key, row_effect.
  destruct (parse_cols row) as [|hc [|booth [|name rest]]]; try done.
  case_bool_decide as Hin; [|done]. intros [= <-].
  assert (find_hall V hc = find_hall (blank ds) hc) as Ef.
  { apply find_hall_from_fields. by rewrite fields_blank. }
  destruct (find_hall V hc) as [j|] eqn:E.
  - exists hc, booth, name, rest, j. split_and!; try done. by apply find_hall_lt in E.
  - exfalso. rewrite <- HV in Hin. apply find_hall_is_Some in Hin as [? ?]. congruence.
Qed.

Lemma brand_ids_document rows k :
  k ∈ brand_ids (rows_effect rows (blank ds)) ↔ k ∈ omap (row_key ds) rows.
Proof.
  rewrite brand_ids_rows_effect, brand_ids_blank, fields_blank, list_elem_of_omap.
  split; [intros [H|H]; [by apply elem_of_nil in H|done]|by right].
Qed.

Lemma fields_document rows : fst <$> rows_effect rows (blank ds) = ds.
Proof. by rewrite fields_rows_effect, fields_blank. Qed.

Lemma rows_effect_snoc rows r :
  rows_effect (rows ++ [r]) (blank ds) = row_effect r (rows_effect rows (blank ds)).
Proof. by rewrite rows_effect_app. Qed.

(** *** The rows of one brand *)

Lemma rows_for_snoc k rows r :
  rows_for ds k (rows ++ [r]) =
    rows_for ds k rows ++ (if decide (row_key ds r = Some k) then [r] else []).
Proof.
  unfold rows_for. rewrite filter_app. by f_equal.
Qed.

Lemma rows_for_nil k rows : k ∉ omap (row_key ds) rows → rows_for ds k rows = [].
Proof.
  intros Hn. unfold rows_for. induction rows as [|r rows IH]; [done|].
  rewrite filter_cons_False.
  - apply IH. intros Hin. apply Hn. simpl. destruct (row_key ds r); [by right|done].
  - intros E. apply Hn. simpl. rewrite E. by left.
Qed.

Lemma rows_for_not_nil k rows : k ∈ omap (row_key ds) rows → rows_for ds k rows ≠ [].
Proof.
  intros (r & Hr & E)%list_elem_of_omap Hnil.
  assert (r ∈ rows_for ds k rows) as Hin by by apply list_elem_of_filter.
  rewrite Hnil in Hin. by apply elem_of_nil in Hin.
Qed.

Lemma first_keys_snoc rows r :
  first_keys ds (rows ++ [r]) =
    match row_key ds r with
    | Some k =>
        if decide (k ∈ omap (row_key ds) rows) then first_keys ds rows
        else first_keys ds rows ++ [k]
    | None => first_keys ds rows
    end.
Proof.
  unfold first_keys. rewrite omap_app. simpl.
  destruct (row_key ds r) as [k|]; simpl; [|by rewrite app_nil_r].
  rewrite reverse_app. simpl.
  destruct (decide (k ∈ omap (row_key ds) rows)) as [Hin|Hn].
  - destruct (decide_rel _ _ _) as [_|Hn]; [done|].
    exfalso. by rewrite elem_of_reverse in Hn.
  - destruct (decide_rel _ _ _) as [Hin|_]; [|by rewrite reverse_cons].
    exfalso. by rewrite elem_of_reverse in Hin.
Qed.

Lemma elem_of_first_keys k rows :
  k ∈ first_keys ds rows ↔ k ∈ omap (row_key ds) rows.
Proof. unfold first_keys. by rewrite elem_of_reverse, elem_of_remove_dups, elem_of_reverse. Qed.

Lemma home_snoc_old rows r k :
  k ∈ omap (row_key ds) rows → home ds (rows ++ [r]) k = home ds rows k.
Proof.
  intros Hin%rows_for_not_nil. unfold home. rewrite rows_for_snoc.
  by destruct (rows_for ds k rows).
Qed.

Lemma home_snoc_other rows r k :
  row_key ds r ≠ Some k → home ds (rows ++ [r]) k = home ds rows k.
Proof.
  intros Hne. unfold home. rewrite rows_for_snoc, decide_False by done.
  by rewrite app_nil_r.
Qed.

Lemma home_snoc_new rows r k hc rest :
  k ∉ omap (row_key ds) rows → row_key ds r = Some k → parse_cols r = hc :: rest →
  home ds (rows ++ [r]) k = find_hall (blank ds) hc.
Proof.
  intros Hn Hk Hc. unfold home. rewrite rows_for_snoc, decide_True by done.
  rewrite (rows_for_nil _ _ Hn). simpl. unfold col. by rewrite Hc.
Qed.

Lemma filter_ext_elem {A} (P Q : A → Prop) `{∀ x, Decision (P x)}
    `{∀ x, Decision (Q x)} (l : list A) :
  (∀ x, x ∈ l → P x ↔ Q x) → filter P l = filter Q l.
Proof.
  induction l as [|x l IH]; intros HPQ; [done|].
  assert (filter P l = filter Q l) as E.
  { apply IH. intros y Hy. apply HPQ. by right. }
  destruct (decide (P x)) as [HP|HP].
  - rewrite !filter_cons_True; [by rewrite E|by apply HPQ; [left|]|done].
  - rewrite !filter_cons_False; [done| |done]. intros HQ. apply HP. apply HPQ; [by left|done].
Qed.

(** *** Which hall a brand is in, and where *)

Lemma lookup_alter_brand_ids k f V i v :
  (∀ b, Brand.id (f b) = Brand.id b) →
  alter_brand k f V !! i = Some v →
  ∃ v0, V !! i = Some v0 ∧ Brand.id <$> v.2 = Brand.id <$> v0.2.
Proof.
  intros Hf. unfold alter_brand. rewrite list_lookup_fmap.
  destruct (V !! i) as [v0|]; [|done]. intros [= <-]. exists v0. split; [done|].
  simpl. rewrite <- list_fmap_compose. apply list_fmap_ext. intros n b _. simpl.
  case_bool_decide; by rewrite ?Hf.
Qed.

Lemma lookup_attach_brand j b V i v :
  attach_brand j b V !! i = Some v →
  ∃ v0, V !! i = Some v0 ∧ v.1 = v0.1 ∧
        v.2 = v0.2 ++ (if decide (i = j) then [b] else []).
Proof.
  unfold attach_brand. destruct (decide (i = j)) as [->|Hne].
  - rewrite list_lookup_alter_eq. destruct (V !! j) as [v0|]; [|done].
    intros [= <-]. by exists v0.
  - rewrite list_lookup_alter_ne by done. intros Hv. exists v.
    by rewrite app_nil_r.
Qed.

(** The ids of the brands of every hall, in order: the composite ids
    whose first row names the hall, in the order of those first rows. *)
Lemma hall_ids_document rows : ∀ i v,
  rows_effect rows (blank ds) !! i = Some v →
  Brand.id <$> v.2 = filter (fun k => home ds rows k = Some i) (first_keys ds rows).
Proof.
  induction rows as [|r rows IH] using rev_ind; intros i v.
  - unfold blank. simpl. rewrite list_lookup_fmap.
    destruct (ds !! i); [|done]. by intros [= <-].
  - rewrite rows_effect_snoc, first_keys_snoc.
    pose proof (fields_document rows) as HV.
    destruct (row_key ds r) as [k|] eqn:Ek.
    + destruct (row_effect_key r _ k HV Ek)
        as (hc & booth & name & rest & j & Hc & -> & Hj & Hlt & ->).
      unfold upsert_brand. destruct (has_brand _ _) eqn:Eh.
      * apply has_brand_true, brand_ids_document in Eh.
        rewrite decide_True by done.
        intros (v0 & Hv0 & ->)%lookup_alter_brand_ids;
          [|intros; apply category_update_id].
        rewrite (IH _ _ Hv0). apply filter_ext_elem.
        intros k' Hk'%elem_of_first_keys. by rewrite home_snoc_old.
      * apply has_brand_false in Eh. rewrite brand_ids_document in Eh.
        rewrite decide_False by done.
        intros (v0 & Hv0 & _ & ->)%lookup_attach_brand.
        rewrite fmap_app, filter_app, (IH _ _ Hv0). f_equal.
        -- apply filter_ext_elem.
           intros k' Hk'%elem_of_first_keys. by rewrite home_snoc_old.
        -- pose proof (home_snoc_new rows r _ hc _ Eh Ek Hc) as Hh. rewrite Hj in Hh.
           destruct (decide (i = j)) as [->|Hne].
           ++ rewrite filter_cons_True by done. simpl. by rewrite category_update_id.
           ++ rewrite filter_cons_False; [done|]. rewrite Hh. intros [= ?]. done.
    + rewrite (row_effect_no_key _ _ HV Ek). intros Hv.
      rewrite (IH _ _ Hv). apply filter_ext_elem.
      intros k' _. rewrite home_snoc_other; [done|]. by rewrite Ek.
Qed.

(** *** What a brand holds *)

Lemma category_update_row r b hc booth name rest :
  parse_cols r = hc :: booth :: name :: rest →
  category_update (rest !! 0%nat) (rest !! 1%nat) (rest !! 2%nat) (rest !! 3%nat) b =
    Brand.mk (Brand.id b) (Brand.booth b) (Brand.name b)
      (default (Brand.description b) (last (info_notes r)))
      (Brand.models b ++ key_entries r)
      (Brand.fullModelList b ++ normal_entries r).
Proof.
  intros Hc. unfold info_notes, key_entries, normal_entries, col. rewrite Hc. simpl.
  unfold category_update, is_category.
  destruct b as [bi bb bn bd bm bf].
  repeat case_bool_decide; simplify_eq; simpl;
    repeat (destruct (truthy _); simpl); by rewrite ?app_nil_r.
Qed.

Lemma lookup_brand_alter_ne k k' f V :
  k ≠ k' → (∀ b, Brand.id (f b) = Brand.id b) →
  lookup_brand k (alter_brand k' f V) = lookup_brand k V.
Proof.
  intros Hne Hf. unfold lookup_brand. rewrite all_brands_alter_brand.
  f_equal. induction (all_brands V) as [|b bs IH]; [done|]. rewrite fmap_cons.
  case_bool_decide as E.
  - rewrite !filter_cons_False; [done|congruence|rewrite Hf; congruence].
  - destruct (decide (Brand.id b = k)).
    + rewrite !filter_cons_True by done. by rewrite IH.
    + by rewrite !filter_cons_False.
Qed.

Lemma lookup_brand_attach_ne k i b V :
  Brand.id b ≠ k → lookup_brand k (attach_brand i b V) = lookup_brand k V.
Proof.
  intros Hne. unfold lookup_brand. destruct (decide (i < length V)%nat) as [Hi|Hi].
  - destruct (all_brands_attach_brand i b V Hi) as (l1 & l2 & -> & ->).
    by rewrite !filter_app, filter_cons_False.
  - unfold attach_brand. rewrite alter_out_of_range; [done|lia].
Qed.

Lemma lookup_brand_upsert_ne k i k' booth name f V :
  k ≠ k' → (∀ b, Brand.id (f b) = Brand.id b) →
  lookup_brand k (upsert_brand i k' booth name f V) = lookup_brand k V.
Proof.
  intros Hne Hf. unfold upsert_brand. destruct (has_brand k' V).
  - by apply lookup_brand_alter_ne.
  - apply lookup_brand_attach_ne. rewrite Hf. simpl. congruence.
Qed.

Lemma last_snoc_list {A} (l m : list A) (d : A) :
  default (default d (last l)) (last m) = default d (last (l ++ m)).
Proof.
  destruct m as [|x m _] using rev_ind; [by rewrite app_nil_r|].
  by rewrite app_assoc, !last_snoc.
Qed.

(** The brand with id [k] after the rows of a document. *)
Lemma lookup_brand_document rows k :
  lookup_brand k (rows_effect rows (blank ds)) = brand_of ds k rows.
Proof.
  induction rows as [|r rows IH] using rev_ind.
  - change (rows_effect [] (blank ds)) with (blank ds).
    rewrite lookup_brand_None; [done|]. rewrite brand_ids_blank. apply not_elem_of_nil.
  - rewrite rows_effect_snoc. pose proof (fields_document rows) as HV.
    unfold brand_of. rewrite rows_for_snoc.
    destruct (row_key ds r) as [k'|] eqn:Ek.
    + destruct (row_effect_key r _ k' HV Ek)
        as (hc & booth & name & rest & j & Hc & Hk' & Hj & Hlt & ->).
      destruct (decide (Some k' = Some k)) as [[= ->]|Hne].
      * rewrite lookup_brand_upsert; [|done|intros; apply category_update_id].
        rewrite IH, (category_update_row r _ _ _ _ _ Hc).
        unfold brand_of.
        destruct (rows_for ds k rows) as [|r0 rs]; simpl.
        -- unfold col at 1 2. rewrite Hc. simpl. by rewrite ?app_nil_r.
        -- rewrite !bind_app, !bind_cons. simpl.
           by rewrite ?app_nil_r, last_snoc_list, <- !app_assoc.
      * rewrite lookup_brand_upsert_ne;
          [|congruence|intros; apply category_update_id].
        by rewrite IH, app_nil_r.
    + rewrite (row_effect_no_key _ _ HV Ek), IH, decide_False by done.
      by rewrite app_nil_r.
Qed.

Lemma lookup_brand_elem V b :
  NoDup (brand_ids V) → b ∈ all_brands V → lookup_brand (Brand.id b) V = Some b.
Proof.
  unfold brand_ids, lookup_brand. induction (all_brands V) as [|b' l IH]; intros Hnd Hb.
  - by apply elem_of_nil in Hb.
  - rewrite fmap_cons in Hnd. apply NoDup_cons in Hnd as [Hn Hnd].
    destruct (decide (Brand.id b' = Brand.id b)) as [E|E].
    + rewrite filter_cons_True by done. simpl. f_equal.
      apply elem_of_cons in Hb as [->|Hb]; [done|].
      exfalso. apply Hn. rewrite E. by apply list_elem_of_fmap_2.
    + rewrite filter_cons_False by done.
      apply elem_of_cons in Hb as [->|Hb]; [done|]. by apply IH.
Qed.

Lemma omap_ids (g : jsstring → option Brand.t) (l : list Brand.t) :
  (∀ b, b ∈ l → g (Brand.id b) = Some b) → omap g (Brand.id <$> l) = l.
Proof.
  induction l as [|b l IH]; intros Hg; [done|]. simpl.
  rewrite Hg by by left. f_equal. apply IH. intros b' Hb'. apply Hg. by right.
Qed.

Lemma NoDup_document rows : NoDup (brand_ids (rows_effect rows (blank ds))).
Proof. apply NoDup_rows_effect. rewrite brand_ids_blank. apply NoDup_nil_2. Qed.

Lemma elem_of_all_brands V i v b : V !! i = Some v → b ∈ v.2 → b ∈ all_brands V.
Proof.
  intros Hv Hb. unfold all_brands. apply list_elem_of_bind. exists v.
  split; [done|]. by apply list_elem_of_lookup_2 in Hv.
Qed.

(** The brands of the hall at index [i] after the rows of a document. *)
Lemma hall_brands_document rows i v :
  rows_effect rows (blank ds) !! i = Some v → v.2 = hall_brands ds i rows.
Proof.
  intros Hv. unfold hall_brands. rewrite <- (hall_ids_document _ _ _ Hv).
  symmetry. apply omap_ids. intros b Hb.
  rewrite <- lookup_brand_document. apply lookup_brand_elem; [apply NoDup_document|].
  by apply (elem_of_all_brands _ i v).
Qed.

(** The whole collection after the rows of a document. *)
Lemma rows_effect_document rows :
  rows_effect rows (blank ds) = imap (fun i d => (d, hall_brands ds i rows)) ds.
Proof.
  apply list_eq. intros i. rewrite list_lookup_imap.
  pose proof (fields_document rows) as HV.
  assert (ds !! i = fst <$> rows_effect rows (blank ds) !! i) as ->.
  { by rewrite <- list_lookup_fmap, HV. }
  destruct (rows_effect rows (blank ds) !! i) as [[d bs]|] eqn:Ev; [|done].
  simpl. by rewrite <- (hall_brands_document rows i _ Ev).
Qed.

Lemma parsed_view_document h0 sk rows :
  skeleton_fields h0 sk = Some ds →
  parsed_view sk rows h0 = Some (rows_effect rows (blank ds)).
Proof.
  intros Hds. unfold parsed_view.
  destruct (run_rows_rep h0 sk ds rows Hds) as (uh & S & bm & h & -> & R).
  by eapply rep_view_halls.
Qed.

End document.

(** X8. What a brand holds is read off the rows that carry its composite
    id, in document order: booth and name are those of the first such
    row, the description is the note of the last Info row that has one
    (empty when there is none), [models] holds one entry per Key row with
    a model name and [fullModelList] one entry per Normal row with a
    model name. A composite id no row carries has no brand. *)
Theorem brand_holds_its_rows h0 sk ds rows (k : jsstring) :
  skeleton_fields h0 sk = Some ds →
  ∃ V, parsed_view sk rows h0 = Some V ∧ lookup_brand k V = brand_of ds k rows.
Proof.
  intros Hds. exists (rows_effect rows (blank ds)).
  split; [by apply parsed_view_document|apply lookup_brand_document].
Qed.

Lemma brand_holds_its_rows_witness :
  skeleton_fields store1 0%nat = Some [hall_17_2] ∧
  ∃ V, parsed_view 0%nat rows1 store1 = Some V ∧
       lookup_brand (str "17.2-B10") V =
         Some (Brand.mk (str "17.2-B10") (str "B10") (str "Nio") (str "Second note")
                 [CarModel.mk (str "ET5") (str "NEW") true None] []).
Proof.
  split; [reflexivity|].
  destruct (brand_holds_its_rows store1 0%nat [hall_17_2] rows1 (str "17.2-B10"))
    as (V & HV & Hk); [reflexivity|].
  exists V. split; [exact HV|]. rewrite Hk. reflexivity.
Defined.

(** X9. The result of a successful load is a function of the document:
    the halls are the skeleton's, in its order, and a hall holds the
    brands whose first row names its code (for a code that several halls
    have, the first of them), in the order of those first rows, each
    brand with what its rows give it. *)
Theorem collection_is_read_off_the_rows h0 sk ds fetch csvUrl r t :
  skeleton_fields h0 sk = Some ds →
  fetch csvUrl = Resolved r →
  text r = Some t →
  ∃ uh h,
    parseBrandsCSV fetch csvUrl sk h0 = Ret uh h ∧
    view_halls h uh = Some (imap (fun i d => (d, hall_brands ds i (rows_of t))) ds).
Proof.
  intros Hds Hf Ht.
  destruct (parse_resolved_rep h0 sk ds fetch csvUrl r t Hds Hf Ht)
    as (uh & S & bm & h & E & R).
  exists uh, h. split; [done|].
  rewrite <- rows_effect_document. by eapply rep_view_halls.
Qed.

Lemma collection_is_read_off_the_rows_witness :
  skeleton_fields store1 0%nat = Some [hall_17_2] ∧
  serve true 200 doc1 url = Resolved (mkResponse true 200 (Some doc1)) ∧
  text (mkResponse true 200 (Some doc1)) = Some doc1 ∧
  ∃ uh h,
    parseBrandsCSV (serve true 200 doc1) url 0%nat store1 = Ret uh h ∧
    view_halls h uh =
      Some (imap (fun i d => (d, hall_brands [hall_17_2] i (rows_of doc1))) [hall_17_2]).
Proof.
  split_and!; [reflexivity..|].
  apply (collection_is_read_off_the_rows store1 0%nat [hall_17_2]
           (serve true 200 doc1) url (mkResponse true 200 (Some doc1)) doc1);
    reflexivity.
Defined.

(** The collection of [rows1], computed from the rows alone. *)
Example collection_of_rows1 :
  imap (fun i d => (d, hall_brands [hall_17_2] i rows1)) [hall_17_2] =
    [(hall_17_2,
      [Brand.mk (str "17.2-B10") (str "B10") (str "Nio") (str "Second note")
         [CarModel.mk (str "ET5") (str "NEW") true None] [];
       Brand.mk (str "17.2-A01") (str "A01") (str "BYD") (str "Great brand")
         [CarModel.mk (str "Seal") (str "NEW") true None]
         [CarModel.mk (str "Han") [] false (Some (str "note"))]])].
Proof. reflexivity. Qed.

(** ** Clicks on the map *)

Section map_clicks.

Implicit Types (V hs : list hall_view) (hall v : hall_view) (st : App.state).

Lemma find_by_unique_id hs hall :
  NoDup ((fun h : hall_view => Hall.id h.1) <$> hs) → hall ∈ hs →
  List.find (fun h : hall_view => bool_decide (Some (Hall.id h.1) = Some (Hall.id hall.1))) hs
    = Some hall.
Proof.
  induction hs as [|h hs IH]; intros Hnd Hin; [by apply elem_of_nil in Hin|].
  rewrite fmap_cons in Hnd. apply NoDup_cons in Hnd as [Hn Hnd]. simpl.
  case_bool_decide as E.
  - f_equal. apply elem_of_cons in Hin as [->|Hin]; [done|].
    exfalso. apply Hn. injection E as ->.
    by apply (list_elem_of_fmap_2 (fun h : hall_view => Hall.id h.1)).
  - apply elem_of_cons in Hin as [->|Hin]; [done|]. by apply IH.
Qed.

(** X10. A click on a hall of the map that is not the end of a drag, on
    a hall with at least one brand, makes that hall the selected one and
    clears the highlighted brand, provided the halls have distinct ids; a
    click that ends a drag, or on a hall without brands, changes
    nothing. *)
Theorem click_selects_the_clicked_hall isDragging hall st :
  hall ∈ App.halls st →
  NoDup ((fun h : hall_view => Hall.id h.1) <$> App.halls st) →
  (isDragging = false ∧ hall.2 ≠ [] →
     App.selectedHall (MapCanvas.handleHallClick isDragging hall st) = Some hall ∧
     App.highlightedBrandId (MapCanvas.handleHallClick isDragging hall st) = None) ∧
  (isDragging = true ∨ hall.2 = [] →
     MapCanvas.handleHallClick isDragging hall st = st).
Proof.
  intros Hin Hnd. unfold MapCanvas.handleHallClick. split.
  - intros [-> Hb]. rewrite bool_decide_eq_true_2.
    + simpl. split; [|done]. unfold App.selectedHall. simpl.
      by apply find_by_unique_id.
    + destruct (hall.2); [done|simpl; lia].
  - intros [->|E]; [done|]. rewrite E. simpl. by rewrite andb_false_r.
Qed.

Lemma click_selects_the_clicked_hall_witness :
  let hall := (hall_17_2, [brand_B10; brand_A1]) in
  hall ∈ App.halls loaded ∧
  NoDup ((fun h : hall_view => Hall.id h.1) <$> App.halls loaded) ∧
  App.selectedHall (MapCanvas.handleHallClick false hall loaded) = Some hall ∧
  MapCanvas.handleHallClick true hall loaded = loaded.
Proof.
  intros hall.
  assert (hall ∈ App.halls loaded) as Hin by (by left).
  assert (NoDup ((fun h : hall_view => Hall.id h.1) <$> App.halls loaded)) as Hnd.
  { apply NoDup_cons. split; [not_in_list|]. apply NoDup_singleton. }
  split_and!; [exact Hin|exact Hnd| |].
  - by apply (click_selects_the_clicked_hall false hall loaded Hin Hnd).
  - apply (click_selects_the_clicked_hall true hall loaded Hin Hnd). by left.
Defined.





End map_clicks.

(** ** The cards of the side panel *)

Section panel_cards.

Variable localeCompare : jsstring → jsstring → Z.

Implicit Types (V : list hall_view) (hall v : hall_view) (k : jsstring)
  (o : gmap jsstring bool).

Lemma sorted_brands_Permutation hall : sorted_brands localeCompare hall ≡ₚ hall.2.
Proof. apply sort_with_Permutation. Qed.

Lemma card_keys o hall :
  fst <$> cards localeCompare o hall = Brand.id <$> sorted_brands localeCompare hall.
Proof. unfold cards. rewrite <- list_fmap_compose. by apply list_fmap_ext. Qed.

Lemma NoDup_hall_ids V v :
  NoDup (brand_ids V) → v ∈ V → NoDup (Brand.id <$> v.2).
Proof.
  unfold brand_ids. induction V as [|v' V IH]; intros Hnd Hin; [by apply elem_of_nil in Hin|].
  rewrite all_brands_cons, fmap_app in Hnd. apply NoDup_app in Hnd as (H1 & _ & H2).
  apply elem_of_cons in Hin as [->|Hin]; [done|]. by apply IH.
Qed.

(** X12. The cards of the side panel have pairwise distinct React keys:
    for every hall of a parsed collection, no two brands of the sorted
    list share an id. *)
Theorem card_keys_are_distinct h0 sk ds rows o :
  skeleton_fields h0 sk = Some ds →
  ∃ V, parsed_view sk rows h0 = Some V ∧
       ∀ v, v ∈ V → NoDup (fst <$> cards localeCompare o v).
Proof.
  intros Hds. exists (rows_effect rows (blank ds)).
  split; [by apply parsed_view_document|]. intros v Hv.
  rewrite card_keys, sorted_brands_Permutation.
  apply (NoDup_hall_ids _ v (NoDup_document ds rows) Hv).
Qed.

Lemma lookup_truthy_toggle_same k o :
  lookup_truthy (toggleBrand k o) k = negb (lookup_truthy o k).
Proof. unfold toggleBrand, lookup_truthy at 1. by rewrite lookup_insert_eq. Qed.

Lemma lookup_truthy_toggle_other k k' o :
  k ≠ k' → lookup_truthy (toggleBrand k o) k' = lookup_truthy o k'.
Proof. intros Hne. unfold toggleBrand, lookup_truthy. by rewrite lookup_insert_ne. Qed.

(** X13. Pressing a brand's header toggles that card and no other: in a
    hall whose brands have distinct ids, after [toggleBrand] with the id
    of the card at position [j], that card is expanded if it was
    collapsed and collapsed if it was expanded, and every other card is
    as it was. *)
Theorem toggle_flips_one_card o hall j k e :
  NoDup (Brand.id <$> hall.2) →
  cards localeCompare o hall !! j = Some (k, e) →
  cards localeCompare (toggleBrand k o) hall
    = <[j := (k, negb e)]> (cards localeCompare o hall).
Proof.
  intros Hnd Hj.
  assert (NoDup (Brand.id <$> sorted_brands localeCompare hall)) as Hnd'.
  { by rewrite sorted_brands_Permutation. }
  revert Hj. unfold cards. rewrite list_lookup_fmap.
  destruct (sorted_brands localeCompare hall !! j) as [bj|] eqn:Ej; [|done].
  simpl. intros [= <- <-]. apply list_eq. intros i.
  destruct (decide (i = j)) as [->|Hne].
  - rewrite list_lookup_insert_eq by (rewrite length_fmap; by eapply lookup_lt_Some).
    rewrite list_lookup_fmap, Ej. simpl.
    by rewrite lookup_truthy_toggle_same, !orb_false_r.
  - rewrite list_lookup_insert_ne by done. rewrite !list_lookup_fmap.
    destruct (sorted_brands localeCompare hall !! i) as [bi|] eqn:Ei; [|done].
    simpl. rewrite lookup_truthy_toggle_other; [done|].
    intros E. apply Hne. symmetry.
    apply (NoDup_lookup _ _ _ (Brand.id bj) Hnd'); rewrite list_lookup_fmap.
    + by rewrite Ej.
    + by rewrite Ei, E.
Qed.

Lemma prototype_keys_no_hyphen k : HYPHEN ∈ k → k ∉ Object_prototype_keys.
Proof.
  intros Hh Hin. unfold Object_prototype_keys in Hin.
  repeat (apply elem_of_cons in Hin as [->|Hin];
          [revert Hh; not_in_list|]).
  by apply elem_of_nil in Hin.
Qed.

Lemma document_ids_have_hyphen ds rows k :
  k ∈ brand_ids (rows_effect rows (blank ds)) → HYPHEN ∈ k.
Proof.
  rewrite brand_ids_document. intros (r & _ & Hk)%list_elem_of_omap.
  revert Hk. unfold row_key.
  destruct (parse_cols r) as [|hc [|booth [|name rest]]]; try done.
  case_bool_decide; [|done]. intros [= <-]. unfold brandId_of.
  apply elem_of_app. right. by left.
Qed.

(** The cards of a hall of the collection of a document, right after a
    change of hall and after a highlight that follows it. *)
Lemma document_cards ds rows v :
  v ∈ rows_effect rows (blank ds) →
  cards localeCompare reset_on_hall_change v
    = (fun b => (Brand.id b, false)) <$> sorted_brands localeCompare v ∧
  ∀ k, k ≠ [] →
    cards localeCompare
        (expand_highlighted (Some k) (Some v) reset_on_hall_change) v
      = (fun b => (Brand.id b, bool_decide (Brand.id b = k)))
          <$> sorted_brands localeCompare v.
Proof.
  intros Hv.
  assert (∀ b, b ∈ sorted_brands localeCompare v →
               lookup_truthy ∅ (Brand.id b) = false) as Hfresh.
  { intros b Hb. unfold lookup_truthy. rewrite lookup_empty.
    apply bool_decide_eq_false_2, prototype_keys_no_hyphen.
    apply (document_ids_have_hyphen ds rows). unfold brand_ids.
    apply list_elem_of_fmap_2. rewrite sorted_brands_Permutation in Hb.
    apply list_elem_of_lookup in Hv as [i Hi]. by apply (elem_of_all_brands _ i v). }
  split.
  - unfold cards, reset_on_hall_change. apply list_fmap_ext.
    intros i b Hb%list_elem_of_lookup_2. by rewrite (Hfresh b Hb).
  - intros k Hk. unfold cards, expand_highlighted, reset_on_hall_change.
    rewrite bool_decide_eq_true_2 by done. apply list_fmap_ext.
    intros i b Hb%list_elem_of_lookup_2. f_equal.
    pose proof (Hfresh b Hb) as Hf. unfold lookup_truthy in Hf |- *.
    destruct (decide (Brand.id b = k)) as [E|E].
    + rewrite (bool_decide_eq_true_2 (Brand.id b = k)) by done.
      by rewrite E, lookup_insert_eq.
    + rewrite (bool_decide_eq_false_2 (Brand.id b = k)) by done.
      rewrite lookup_insert_ne by done. by rewrite Hf.
Qed.

(** X14. After a change of hall every card of a parsed hall is
    collapsed, and when a brand is highlighted right after it, its card
    is the only expanded one. *)
Theorem parsed_cards_start_collapsed h0 sk ds rows :
  skeleton_fields h0 sk = Some ds →
  ∃ V, parsed_view sk rows h0 = Some V ∧
       ∀ v, v ∈ V →
         cards localeCompare reset_on_hall_change v
           = (fun b => (Brand.id b, false)) <$> sorted_brands localeCompare v ∧
         ∀ k, k ≠ [] →
           cards localeCompare
               (expand_highlighted (Some k) (Some v) reset_on_hall_change) v
             = (fun b => (Brand.id b, bool_decide (Brand.id b = k)))
                 <$> sorted_brands localeCompare v.
Proof.
  intros Hds. exists (rows_effect rows (blank ds)).
  split; [by apply parsed_view_document|]. apply document_cards.
Qed.


End panel_cards.

Lemma card_keys_are_distinct_witness :
  skeleton_fields store1 0%nat = Some [hall_17_2] ∧
  ∃ V, parsed_view 0%nat rows1 store1 = Some V ∧
       ∀ v, v ∈ V → NoDup (fst <$> cards by_length ∅ v).
Proof.
  split; [reflexivity|].
  apply (card_keys_are_distinct by_length store1 0%nat [hall_17_2] rows1 ∅).
  reflexivity.
Defined.

Lemma toggle_flips_one_card_witness :
  let hall : hall_view := (hall_17_2, [brand_B10; brand_A1]) in
  NoDup (Brand.id <$> hall.2) ∧
  cards by_length ∅ hall !! 0%nat = Some (str "17.2-A1", false) ∧
  cards by_length (toggleBrand (str "17.2-A1") ∅) hall
    = <[0%nat := (str "17.2-A1", true)]> (cards by_length ∅ hall).
Proof.
  intros hall.
  assert (NoDup (Brand.id <$> hall.2)) as Hnd.
  { apply NoDup_cons. split; [not_in_list|]. apply NoDup_singleton. }
  split_and!; [exact Hnd|reflexivity|].
  by apply (toggle_flips_one_card by_length ∅ hall 0%nat (str "17.2-A1") false Hnd).
Defined.

Lemma parsed_cards_start_collapsed_witness :
  skeleton_fields store1 0%nat = Some [hall_17_2] ∧
  ∃ V, parsed_view 0%nat rows1 store1 = Some V ∧
       ∀ v, v ∈ V →
         cards by_length reset_on_hall_change v
           = (fun b => (Brand.id b, false)) <$> sorted_brands by_length v ∧
         ∀ k, k ≠ [] →
           cards by_length
               (expand_highlighted (Some k) (Some v) reset_on_hall_change) v
             = (fun b => (Brand.id b, bool_decide (Brand.id b = k)))
                 <$> sorted_brands by_length v.
Proof.
  split; [reflexivity|].
  apply (parsed_cards_start_collapsed by_length store1 0%nat [hall_17_2] rows1).
  reflexivity.
Defined.


(** A brand whose id is a property name of [Object.prototype] is shown
    expanded without having been toggled. *)
Example inherited_name_card_is_expanded :
  cards by_length reset_on_hall_change
    (hall_17_2, [Brand.mk (str "constructor") (str "A1") (str "X") [] [] []])
  = [(str "constructor", true)].
Proof. reflexivity. Qed.

(** ** The style of a tag *)

Section tag_style.

Implicit Types (s t a b tag : jsstring).

Lemma startsWith_spec s t : startsWith s t = true ↔ ∃ b, s = t ++ b.
Proof.
  revert s. induction t as [|d t IH]; intros s; simpl.
  - split; [by exists s|done].
  - destruct s as [|c s]; simpl.
    + split; [done|]. by intros [b ?].
    + rewrite andb_true_iff, IH, N.eqb_eq. split.
      * intros [-> [b ->]]. by exists b.
      * intros [b [= -> ->]]. split; [done|by exists b].
Qed.

Lemma includes_spec s t : includes s t = true ↔ ∃ a b, s = a ++ t ++ b.
Proof.
  induction s as [|c s IH]; simpl.
  - rewrite orb_false_r, startsWith_spec. split.
    + intros [b ->]. by exists [], b.
    + intros (a & b & E). destruct a; [by exists b|done].
  - rewrite orb_true_iff, startsWith_spec, IH. split.
    + intros [[b ->]|(a & b & ->)]; [by exists [], b|by exists (c :: a), b].
    + intros ([|c' a] & b & E); [left; by exists b|].
      right. injection E as -> ->. by exists a, b.
Qed.

(** X15. A tag gets the red style exactly when the marker for a new car
    occurs somewhere in it, whatever else it contains: that marker takes
    precedence over the two others. *)
Theorem new_car_marker_takes_precedence tag :
  getTagStyle tag = "bg-red-900/40 text-red-300 border border-red-900/50"%string
  ↔ ∃ a b, tag = a ++ NEW_CAR ++ b.
Proof.
  rewrite <- includes_spec. unfold getTagStyle.
  destruct (includes tag NEW_CAR); [done|].
  by destruct (includes tag DEBUT), (includes tag REDESIGN).
Qed.

End tag_style.

(** ** The rows of a document given by its lines *)

Section document_lines.

Implicit Types (l t : jsstring) (ls : list jsstring).

Lemma split_on_no_sep sep l : sep ∉ l → split_on sep l = [l].
Proof.
  induction l as [|c l IH]; [done|]. rewrite not_elem_of_cons. intros [Hc Hl].
  simpl. rewrite (IH Hl). by rewrite (proj2 (N.eqb_neq c sep)) by congruence.
Qed.

Lemma split_on_join sep l ls :
  Forall (fun l => sep ∉ l) (l :: ls) → split_on sep (join sep (l :: ls)) = l :: ls.
Proof.
  revert l. induction ls as [|l' ls IH]; intros l [Hl Hls]%Forall_cons.
  - by apply split_on_no_sep.
  - change (join sep (l :: l' :: ls)) with (l ++ sep :: join sep (l' :: ls)).
    rewrite split_on_first_line by done. f_equal. by apply IH.
Qed.

(** X17. The rows of a document are its lines after the first that are
    not blank, in order: joining lines with line feeds and reading the
    rows back gives the lines but the first, without those that hold
    white space only. *)
Theorem rows_are_the_non_blank_lines first ls :
  Forall (fun l => NEWLINE ∉ l) (first :: ls) →
  rows_of (join NEWLINE (first :: ls)) = filter (fun r => trim r ≠ []) ls.
Proof. intros H. unfold rows_of. by rewrite split_on_join. Qed.

Lemma rows_are_the_non_blank_lines_witness :
  let ls := [str "17.2,A01,BYD"; str "  "; str "17.2,A02,Nio"; str ""] in
  Forall (fun l => NEWLINE ∉ l) (header :: ls) ∧
  rows_of (join NEWLINE (header :: ls)) = [str "17.2,A01,BYD"; str "17.2,A02,Nio"].
Proof.
  intros ls.
  assert (Forall (fun l => NEWLINE ∉ l) (header :: ls)) as H.
  { repeat (apply Forall_cons; split; [not_in_list|]). apply Forall_nil_2. }
  split; [exact H|]. rewrite (rows_are_the_non_blank_lines header ls H).
  vm_compute. reflexivity.
Defined.

End document_lines.

(** ** The zoom level *)

Section zoom.

Import Zoom.

(** The levels are closed under the two buttons. *)
Lemma levels_closed :
  Forall (fun c => handleZoomIn c ∈ levels ∧ handleZoomOut c ∈ levels) levels.
Proof.
  unfold levels.
  repeat (apply Forall_cons; split;
    [split; vm_compute; repeat first [apply list_elem_of_here | apply list_elem_of_further]|]).
  apply Forall_nil_2.
Qed.

Lemma levels_in_range : Forall (fun c => in_range c = true) levels.
Proof.
  unfold levels. repeat (apply Forall_cons; split; [vm_compute; reflexivity|]).
  apply Forall_nil_2.
Qed.

Lemma levels_default narrow : defaultScale narrow ∈ levels.
Proof.
  destruct narrow; vm_compute;
    repeat first [apply list_elem_of_here | apply list_elem_of_further].
Qed.

Lemma levels_step s a : s ∈ levels → step s a ∈ levels.
Proof.
  intros Hs. pose proof levels_closed as Hc. rewrite Forall_forall in Hc.
  destruct a; simpl; [by apply Hc|by apply Hc|apply levels_default].
Qed.

(** X18. The zoom level never leaves its range: from either initial
    scale, after any sequence of presses of the zoom-in, zoom-out and
    reset buttons the scale is at least 0.3 and at most 3. *)
Theorem zoom_level_stays_in_range narrow acts :
  in_range (scale_after narrow acts) = true.
Proof.
  pose proof levels_in_range as Hr. rewrite Forall_forall in Hr. apply Hr.
  unfold scale_after. generalize (levels_default narrow).
  generalize (defaultScale narrow). induction acts as [|a acts IH]; intros s Hs; [done|].
  simpl. apply IH. by apply levels_step.
Qed.

End zoom.
